(** * Fair Bucket Splitter: a shallow embedding of [static/js/splitter.js]

    The script assigns a browser client to experiment bucket "A" or "B".
    It reads and writes two [localStorage] keys, asks a GeoIP provider and
    the user agent for an identity, and hashes the identity through an
    exception-driven chain of fallbacks.

    Conventions of the embedding.
    - A JavaScript string is the list of its UTF-16 code units ([jsstr]).
    - A JavaScript number is a [Z] wherever the source keeps it integral and
      below 2^53 in magnitude (every arithmetic expression of the script
      does); the 32-bit operators are written out with their wrap-around.
    - A [try { e } catch { h }] block is an [option]-valued computation
      for [e] with [h] taken on [None].
    - [async] functions run to completion one after the other, so [await]
      is sequencing in a state monad over the browser state [World].
    - The browser (storage failures, GeoIP, digest, random sources, case
      mapping tables) is a record [Env] of capabilities. *)

From Stdlib Require Import ZArith List String Ascii Bool Lia.
From stdpp Require Import base option list gmap.

Import ListNotations.
Local Open Scope Z_scope.

(* ===================================================================== *)
(** ** JavaScript strings and numbers *)
(* ===================================================================== *)

(** A string value: its sequence of UTF-16 code units. *)
Abbreviation jsstr := (list Z).

(** A string literal of the source (all literals of the script are ASCII). *)
Fixpoint lit (s : string) : jsstr :=
  match s with
  | EmptyString => []
  | String a s' => Z.of_N (N_of_ascii a) :: lit s'
  end.

(** Truthiness of [string | null]: [null] and the empty string are falsy. *)
Definition truthy (v : option jsstr) : bool :=
  match v with
  | Some (_ :: _) => true
  | _ => false
  end.

Definition two32 : Z := 4294967296.

(** [ToInt32] and [ToUint32] of ECMA-262 on an integral number. *)
Definition ToUint32 (z : Z) : Z := z mod two32.
Definition ToInt32 (z : Z) : Z := (z + 2147483648) mod two32 - 2147483648.

(** [a << n], [a | b], [a ^ b] and [a >>> 0]. *)
Definition js_shl (a n : Z) : Z := ToInt32 (Z.shiftl (ToInt32 a) (n mod 32)).
Definition js_or (a b : Z) : Z := ToInt32 (Z.lor (ToInt32 a) (ToInt32 b)).
Definition js_xor (a b : Z) : Z := ToInt32 (Z.lxor (ToInt32 a) (ToInt32 b)).
Definition js_ushr0 (a : Z) : Z := ToUint32 a.

(** A number that may be [NaN] (only [parseInt] produces one here). *)
Inductive JsNumber : Type :=
| Num (z : Z)
| NaN.

(** [StrWhiteSpaceChar]: white space and line terminators, as [trim] and
    [parseInt] skip them. *)
Definition isWhiteSpace (c : Z) : bool :=
  (c =? 9) || (c =? 10) || (c =? 11) || (c =? 12) || (c =? 13) || (c =? 32)
  || (c =? 160) || (c =? 5760) || ((8192 <=? c) && (c <=? 8202))
  || (c =? 8232) || (c =? 8233) || (c =? 8239) || (c =? 8287)
  || (c =? 12288) || (c =? 65279).

Fixpoint trimStart (s : jsstr) : jsstr :=
  match s with
  | [] => []
  | c :: rest => if isWhiteSpace c then trimStart rest else s
  end.

Definition trimEnd (s : jsstr) : jsstr := rev (trimStart (rev s)).

(** [String.prototype.trim]. *)
Definition trim (s : jsstr) : jsstr := trimEnd (trimStart s).

(** [s.substring(a, b)] for [0 <= a <= b]. *)
Definition substring (s : jsstr) (a b : nat) : jsstr :=
  firstn (b - a) (skipn a s).

(** [s.substr(a, n)] for [0 <= a]. *)
Definition substr (s : jsstr) (a n : nat) : jsstr :=
  firstn n (skipn a s).

(* ===================================================================== *)
(** ** The score threshold *)
(* ===================================================================== *)

Definition EXACT_MIDDLE_POINT : Z := 2147483648.
Definition FAIR_BUCKET_STORAGE_KEY : jsstr := lit "fair_bucket".
Definition FAIR_BUCKET_MANUAL_KEY : jsstr := lit "fair_bucket_manual".

(** The expression [score >= EXACT_MIDDLE_POINT ? "A" : "B"], which the
    source writes out in [assignFairBucket] and in [getHashBasedBucket]. *)
Definition bucketOfScore (score : Z) : jsstr :=
  if EXACT_MIDDLE_POINT <=? score then lit "A" else lit "B".

(* ===================================================================== *)
(** ** FNV-1a *)
(* ===================================================================== *)

(** One turn of the loop body of [fnv1a32]:
    [h ^= c; h = (h + ((h<<1) + (h<<4) + (h<<7) + (h<<8) + (h<<24))) >>> 0]. *)
Definition fnv1a32_step (h c : Z) : Z :=
  let h := js_xor h c in
  js_ushr0 (h + (js_shl h 1 + js_shl h 4 + js_shl h 7 + js_shl h 8 + js_shl h 24)).

(** [fnv1a32(str)]: the loop runs over the code units in order. *)
Definition fnv1a32 (str : jsstr) : Z :=
  js_ushr0 (fold_left fnv1a32_step str 2166136261).

(** The hash as the specification words it: offset basis [0x811c9dc5];
    every code unit is XORed into the accumulator, which then becomes
    [h + (h<<1) + (h<<4) + (h<<7) + (h<<8) + (h<<24)] modulo 2^32, on
    unsigned 32-bit values with mathematical shifts. *)
Definition fnv1a_spec_step (h c : Z) : Z :=
  let h := Z.lxor h c in
  (h + Z.shiftl h 1 + Z.shiftl h 4 + Z.shiftl h 7 + Z.shiftl h 8
     + Z.shiftl h 24) mod 2 ^ 32.

Definition fnv1a_spec (str : jsstr) : Z :=
  fold_left fnv1a_spec_step str 2166136261.

(** The textbook form: multiply by the FNV prime 16777619. *)
Definition fnv1a_mul_step (h c : Z) : Z := (Z.lxor h c * 16777619) mod 2 ^ 32.

Definition fnv1a_mul (str : jsstr) : Z :=
  fold_left fnv1a_mul_step str 2166136261.

(* ===================================================================== *)
(** ** UTF-16, UTF-8 and the URI escapes *)
(* ===================================================================== *)

Definition isCodeUnit (c : Z) : bool := (0 <=? c) && (c <? 65536).
Definition isHighSurrogate (c : Z) : bool := (0xD800 <=? c) && (c <=? 0xDBFF).
Definition isLowSurrogate (c : Z) : bool := (0xDC00 <=? c) && (c <=? 0xDFFF).

(** The code point of a surrogate pair ([UTF16SurrogatePairToCodePoint]). *)
Definition pairCodePoint (hi lo : Z) : Z :=
  (hi - 0xD800) * 0x400 + (lo - 0xDC00) + 0x10000.

(** [String.prototype.isWellFormed]: no unpaired surrogate. *)
Fixpoint isWellFormed (s : jsstr) : bool :=
  match s with
  | [] => true
  | c :: rest =>
      if isHighSurrogate c then
        match rest with
        | d :: rest' => isLowSurrogate d && isWellFormed rest'
        | [] => false
        end
      else negb (isLowSurrogate c) && isWellFormed rest
  end.

(** The UTF-8 transformation of one code point (RFC 3629, section 3). *)
Definition utf8_octets (cp : Z) : list Z :=
  if cp <? 0x80 then [cp]
  else if cp <? 0x800 then [0xC0 + cp / 64; 0x80 + cp mod 64]
  else if cp <? 0x10000 then
    [0xE0 + cp / 4096; 0x80 + (cp / 64) mod 64; 0x80 + cp mod 64]
  else
    [0xF0 + cp / 262144; 0x80 + (cp / 4096) mod 64;
     0x80 + (cp / 64) mod 64; 0x80 + cp mod 64].

(** [new TextEncoder().encode(s)] (WHATWG Encoding): the string is read as
    scalar values, an unpaired surrogate becoming U+FFFD, and each scalar
    value is UTF-8 encoded.  This is the standard UTF-8 encoding of [s]. *)
Fixpoint TextEncoder_encode (s : jsstr) : list Z :=
  match s with
  | [] => []
  | c :: rest =>
      if isHighSurrogate c then
        match rest with
        | d :: rest' =>
            if isLowSurrogate d
            then utf8_octets (pairCodePoint c d) ++ TextEncoder_encode rest'
            else utf8_octets 0xFFFD ++ TextEncoder_encode rest
        | [] => utf8_octets 0xFFFD
        end
      else if isLowSurrogate c then utf8_octets 0xFFFD ++ TextEncoder_encode rest
      else utf8_octets c ++ TextEncoder_encode rest
  end.

(** [uriUnescaped] of ECMA-262: letters, digits and [- _ . ! ~ * ' ( )]. *)
Definition uriUnescaped (c : Z) : bool :=
  ((65 <=? c) && (c <=? 90)) || ((97 <=? c) && (c <=? 122))
  || ((48 <=? c) && (c <=? 57))
  || (c =? 45) || (c =? 95) || (c =? 46) || (c =? 33) || (c =? 126)
  || (c =? 42) || (c =? 39) || (c =? 40) || (c =? 41).

(** An upper-case hexadecimal digit. *)
Definition hexDigit (n : Z) : Z := if n <? 10 then 48 + n else 55 + n.

(** ["%XY"] for each octet. *)
Definition percentEscape (octets : list Z) : jsstr :=
  flat_map (fun b => [37; hexDigit (b / 16); hexDigit (b mod 16)]) octets.

(** [encodeURIComponent(s)], the abstract operation [Encode] of ECMA-262:
    an unescaped code unit is copied, any other code point is replaced by
    the escapes of its UTF-8 octets, and an unpaired surrogate throws a
    [URIError] ([None]). *)
Fixpoint encodeURIComponent (s : jsstr) : option jsstr :=
  match s with
  | [] => Some []
  | c :: rest =>
      if uriUnescaped c then cons c <$> encodeURIComponent rest
      else if isHighSurrogate c then
        match rest with
        | d :: rest' =>
            if isLowSurrogate d
            then app (percentEscape (utf8_octets (pairCodePoint c d)))
                   <$> encodeURIComponent rest'
            else None
        | [] => None
        end
      else if isLowSurrogate c then None
      else app (percentEscape (utf8_octets c)) <$> encodeURIComponent rest
  end.

Definition hexValue (c : Z) : option Z :=
  if (48 <=? c) && (c <=? 57) then Some (c - 48)
  else if (65 <=? c) && (c <=? 70) then Some (c - 55)
  else if (97 <=? c) && (c <=? 102) then Some (c - 87)
  else None.

(** The values of the longest prefix of hexadecimal digits. *)
Fixpoint hexPrefix (s : jsstr) : list Z :=
  match s with
  | [] => []
  | c :: rest =>
      match hexValue c with
      | Some d => d :: hexPrefix rest
      | None => []
      end
  end.

(** [parseInt(s, 16)]: leading white space, a sign and a ["0x"] prefix are
    skipped, the longest run of hexadecimal digits is read, and no digit
    at all gives [NaN].  (Exact for the short strings the script passes;
    [-0] is not told apart from [0].) *)
Definition parseInt16 (s : jsstr) : JsNumber :=
  let s0 := trimStart s in
  let '(sign, s1) :=
    match s0 with
    | c :: r => if c =? 45 then (-1, r) else if c =? 43 then (1, r) else (1, s0)
    | [] => (1, s0)
    end in
  let s2 :=
    match s1 with
    | a :: b :: r => if (a =? 48) && ((b =? 120) || (b =? 88)) then r else s1
    | _ => s1
    end in
  match hexPrefix s2 with
  | [] => NaN
  | ds => Num (sign * fold_left (fun acc d => acc * 16 + d) ds 0)
  end.

(** The [for] loop of [strToUtf8Bytes], with its index [i] and the array
    [bytes] it pushes to.  Every turn advances [i], so [length enc] turns
    of fuel reach the end. *)
Fixpoint strToUtf8Bytes_loop (fuel : nat) (enc : jsstr) (i : nat)
    (bytes : list JsNumber) : list JsNumber :=
  match fuel with
  | O => bytes
  | S fuel' =>
      if (i <? length enc)%nat then
        let ch := nth i enc 0 in
        if ch =? 37 then
          strToUtf8Bytes_loop fuel' enc (i + 2 + 1)
            (bytes ++ [parseInt16 (substr enc (i + 1) 2)])
        else
          strToUtf8Bytes_loop fuel' enc (i + 1) (bytes ++ [Num ch])
      else bytes
  end.

(** [strToUtf8Bytes(str)]; it throws when [encodeURIComponent] does. *)
Definition strToUtf8Bytes (str : jsstr) : option (list JsNumber) :=
  enc ← encodeURIComponent str;
  Some (strToUtf8Bytes_loop (length enc) enc 0 []).

(** [new Uint8Array(numbers)]: each element is stored by [ToUint8]. *)
Definition Uint8Array_from (l : list JsNumber) : list Z :=
  map (fun n => match n with Num z => z mod 256 | NaN => 0 end) l.

(* ===================================================================== *)
(** ** The browser: capabilities and state *)
(* ===================================================================== *)

(** What the script observes of one [Math.random()] result [r]:
    [r.toString(36)] and [Math.floor(r * 0x100000000)]. *)
Record RandomDraw : Type := {
  base36 : jsstr;
  scaled32 : Z
}.

(** The global [getGeoIP]: not a function, a call that throws or rejects,
    or a call whose result [data] gives [String(data?.ip || "")]. *)
Inductive GeoIP : Type :=
| GeoIP_absent
| GeoIP_throws
| GeoIP_ip (ip : jsstr).

Record Env : Type := {
  (** does [localStorage.getItem] / [setItem] / [removeItem] return? *)
  storage_getItem_ok : bool;
  storage_setItem_ok : bool;
  storage_removeItem_ok : bool;
  getGeoIP : GeoIP;
  (** [String(navigator.userAgent || "")], or [None] when reading throws *)
  userAgent : option jsstr;
  (** [String.prototype.toLowerCase] (the Unicode case mapping tables) *)
  toLowerCase : jsstr -> jsstr;
  has_TextEncoder : bool;
  (** [crypto.subtle.digest("SHA-256", bytes)]; [None] when it is missing,
      throws or rejects *)
  subtle_digest : list Z -> option (list Z);
  has_DataView : bool;
  (** [crypto.getRandomValues]: the word written by the n-th call, or
      [None] when it is missing or throws *)
  getRandomValues : option (nat -> Z);
  (** the n-th result of [Math.random()] *)
  Math_random : nat -> RandomDraw
}.

Inductive Level : Type := LOG | WARN | ERROR.

(** What a run does to the outside, most recent first. *)
Inductive Event : Type :=
| EvGetItem (key : jsstr)
| EvSetItem (key value : jsstr)
| EvRemoveItem (key : jsstr)
| EvGeoIP
| EvDigest (bytes : list Z)
| EvGetRandomValues
| EvMathRandom
| EvConsole (lvl : Level) (msg : string).

Record World : Type := {
  storage : gmap jsstr jsstr;
  mathRandomCalls : nat;
  cryptoCalls : nat;
  trace : list Event
}.

Definition emitted (e : Event) (w : World) : World :=
  {| storage := storage w; mathRandomCalls := mathRandomCalls w;
     cryptoCalls := cryptoCalls w; trace := e :: trace w |}.

Definition with_storage (m : gmap jsstr jsstr) (w : World) : World :=
  {| storage := m; mathRandomCalls := mathRandomCalls w;
     cryptoCalls := cryptoCalls w; trace := trace w |}.

(** Sequential effects over the browser state. *)
Definition M (A : Type) : Type := World -> A * World.

Definition ret {A : Type} (a : A) : M A := fun w => (a, w).

Definition bind {A B : Type} (m : M A) (k : A -> M B) : M B :=
  fun w => let (a, w') := m w in k a w'.

Notation "x <- m ;; k" := (bind m (fun x => k))
  (at level 100, m at next level, right associativity).
Notation "m ;;; k" := (bind m (fun _ => k))
  (at level 100, right associativity).

Definition emit (e : Event) : M unit := fun w => (tt, emitted e w).

Definition console (lvl : Level) (msg : string) : M unit :=
  emit (EvConsole lvl msg).

(** A storage event is a write when it can change the store. *)
Definition isStoreWrite (e : Event) : bool :=
  match e with
  | EvSetItem _ _ | EvRemoveItem _ => true
  | _ => false
  end.

Definition isStoreAccess (e : Event) : bool :=
  match e with
  | EvGetItem _ | EvSetItem _ _ | EvRemoveItem _ => true
  | _ => false
  end.

Definition isSetItem (e : Event) : bool :=
  match e with
  | EvSetItem _ _ => true
  | _ => false
  end.

(** An event of computing a score: identity lookup, digest, random draw. *)
Definition isComputation (e : Event) : bool :=
  match e with
  | EvGeoIP | EvDigest _ | EvGetRandomValues | EvMathRandom => true
  | _ => false
  end.

Section Splitter.

Context (env : Env).

(* --------------------------------------------------------------------- *)
(** *** [localStorage] *)
(* --------------------------------------------------------------------- *)

(** The three methods; [None] is a thrown exception. *)
Definition localStorage_getItem (key : jsstr) : M (option (option jsstr)) :=
  fun w =>
    (if storage_getItem_ok env then Some (storage w !! key) else None,
     emitted (EvGetItem key) w).

Definition localStorage_setItem (key value : jsstr) : M (option unit) :=
  fun w =>
    if storage_setItem_ok env
    then (Some tt, emitted (EvSetItem key value)
                     (with_storage (<[key := value]> (storage w)) w))
    else (None, emitted (EvSetItem key value) w).

Definition localStorage_removeItem (key : jsstr) : M (option unit) :=
  fun w =>
    if storage_removeItem_ok env
    then (Some tt, emitted (EvRemoveItem key)
                     (with_storage (delete key (storage w)) w))
    else (None, emitted (EvRemoveItem key) w).

Definition getSavedBucket : M (option jsstr) :=
  r <- localStorage_getItem FAIR_BUCKET_STORAGE_KEY ;;
  match r with
  | Some v => ret v
  | None => console WARN "[Splitter] localStorage access failed:" ;;; ret None
  end.

Definition saveBucket (bucketName : jsstr) : M unit :=
  r <- localStorage_setItem FAIR_BUCKET_STORAGE_KEY bucketName ;;
  match r with
  | Some _ => ret tt
  | None => console WARN "[Splitter] Failed to save bucket:"
  end.

Definition isManualOverride : M bool :=
  r <- localStorage_getItem FAIR_BUCKET_MANUAL_KEY ;;
  match r with
  | Some v => ret (bool_decide (v = Some (lit "true")))
  | None => ret false
  end.

Definition setManualOverride (isManual : bool) : M unit :=
  r <- (if isManual
        then localStorage_setItem FAIR_BUCKET_MANUAL_KEY (lit "true")
        else localStorage_removeItem FAIR_BUCKET_MANUAL_KEY) ;;
  match r with
  | Some _ => ret tt
  | None => console WARN "[Splitter] Failed to set manual override flag:"
  end.

(* --------------------------------------------------------------------- *)
(** *** Identity key *)
(* --------------------------------------------------------------------- *)

Definition Math_random_call : M RandomDraw :=
  fun w =>
    (Math_random env (mathRandomCalls w),
     emitted EvMathRandom
       {| storage := storage w; mathRandomCalls := S (mathRandomCalls w);
          cryptoCalls := cryptoCalls w; trace := trace w |}).

(** The identifier [`random-${Math.random().toString(36).substring(2, 15)}`]. *)
Definition randomIdOf (d : RandomDraw) : jsstr :=
  lit "random-" ++ substring (base36 d) 2 15.

Definition getMyIpAddress : M jsstr :=
  found <-
    match getGeoIP env with
    | GeoIP_absent => ret None
    | GeoIP_throws =>
        emit EvGeoIP ;;; console WARN "[Splitter] getGeoIP failed:" ;;; ret None
    | GeoIP_ip s =>
        emit EvGeoIP ;;;
        let ip := trim s in
        ret (if truthy (Some ip) then Some ip else None)
    end ;;
  match found with
  | Some ip => ret ip
  | None =>
      d <- Math_random_call ;;
      let randomId := randomIdOf d in
      console WARN "[Splitter] IP detection failed, using random identifier" ;;;
      ret randomId
  end.

Definition buildHashInput : M jsstr :=
  ip <- getMyIpAddress ;;
  ua <- match userAgent env with
        | Some s => ret s
        | None => console WARN "[Splitter] Failed to get user agent:" ;;; ret []
        end ;;
  ret (toLowerCase env (trim (ip ++ lit "|" ++ ua))).

(* --------------------------------------------------------------------- *)
(** *** Hash chain *)
(* --------------------------------------------------------------------- *)

(** [new DataView(buffer).getUint32(0, false)]: big-endian; it throws when
    [DataView] is missing or the buffer is shorter than four bytes. *)
Definition DataView_getUint32 (buffer : list Z) : option Z :=
  if has_DataView env then
    match buffer with
    | b0 :: b1 :: b2 :: b3 :: _ =>
        Some (b0 * 16777216 + b1 * 65536 + b2 * 256 + b3)
    | _ => None
    end
  else None.

(** [((u8[0] << 24) | (u8[1] << 16) | (u8[2] << 8) | (u8[3])) >>> 0]; an
    index past the end reads [undefined], which the operators turn to 0. *)
Definition firstWord_u8 (u8 : list Z) : Z :=
  js_ushr0
    (js_or (js_or (js_or (js_shl (nth 0 u8 0) 24) (js_shl (nth 1 u8 0) 16))
                  (js_shl (nth 2 u8 0) 8))
           (nth 3 u8 0)).

(** The bytes given to the digest: from [TextEncoder], and from
    [strToUtf8Bytes] when constructing the encoder throws. *)
Definition encodeInput (normalized : jsstr) : option (list Z) :=
  if has_TextEncoder env then Some (TextEncoder_encode normalized)
  else Uint8Array_from <$> strToUtf8Bytes normalized.

(** The first [try] block of [hashToUint32]; [None] reaches its [catch]. *)
Definition sha256Stage (normalized : jsstr) : M (option Z) :=
  match encodeInput normalized with
  | None => ret None
  | Some bytes =>
      emit (EvDigest bytes) ;;;
      match subtle_digest env bytes with
      | None => ret None
      | Some buffer =>
          match DataView_getUint32 buffer with
          | Some v => ret (Some (js_ushr0 v))
          | None => ret (Some (firstWord_u8 buffer))
          end
      end
  end.

(** The second [try] block: [fnv1a32] has nothing that throws. *)
Definition fnvStage (normalized : jsstr) : option Z := Some (fnv1a32 normalized).

(** The last [try]/[catch]: [crypto.getRandomValues], else [Math.random]. *)
Definition randomStage : M Z :=
  match getRandomValues env with
  | Some fill =>
      fun w =>
        (js_ushr0 (ToUint32 (fill (cryptoCalls w))),
         emitted EvGetRandomValues
           {| storage := storage w; mathRandomCalls := mathRandomCalls w;
              cryptoCalls := S (cryptoCalls w); trace := trace w |})
  | None =>
      emit EvGetRandomValues ;;;
      d <- Math_random_call ;;
      ret (js_ushr0 (scaled32 d))
  end.

Definition hashToUint32 (text : jsstr) : M Z :=
  let normalized := text in
  r <- sha256Stage normalized ;;
  match r with
  | Some score => ret score
  | None =>
      console WARN "[Splitter] SHA-256 failed, using FNV-1a fallback" ;;;
      match fnvStage normalized with
      | Some score => ret score
      | None =>
          console WARN "[Splitter] FNV-1a failed, using random fallback" ;;;
          randomStage
      end
  end.

(* --------------------------------------------------------------------- *)
(** *** Orchestration *)
(* --------------------------------------------------------------------- *)

Definition assignFairBucket : M jsstr :=
  existing <- getSavedBucket ;;
  if truthy existing then
    isManual <- isManualOverride ;;
    console LOG "[Splitter] Loaded existing bucket:" ;;;
    ret (default [] existing)
  else
    key <- buildHashInput ;;
    score <- hashToUint32 key ;;
    let bucket := bucketOfScore score in
    saveBucket bucket ;;;
    setManualOverride false ;;;
    console LOG "[Splitter] New assignment:" ;;;
    ret bucket.

Definition setFairBucket (bucket : jsstr) : M unit :=
  if negb (bool_decide (bucket = lit "A")) && negb (bool_decide (bucket = lit "B"))
  then console ERROR "[Splitter] Invalid bucket:"
  else
    saveBucket bucket ;;;
    setManualOverride true ;;;
    console LOG "[Splitter] Manual override set:".

Definition clearFairBucket : M jsstr :=
  (r1 <- localStorage_removeItem FAIR_BUCKET_STORAGE_KEY ;;
   match r1 with
   | None => console WARN "[Splitter] Failed to clear bucket:"
   | Some _ =>
       r2 <- localStorage_removeItem FAIR_BUCKET_MANUAL_KEY ;;
       match r2 with
       | None => console WARN "[Splitter] Failed to clear bucket:"
       | Some _ => console LOG "[Splitter] Cleared bucket assignment"
       end
   end) ;;;
  assignFairBucket.

Definition getHashBasedBucket : M jsstr :=
  key <- buildHashInput ;;
  score <- hashToUint32 key ;;
  ret (bucketOfScore score).

End Splitter.

(** ASCII lower-casing: what [toLowerCase] does on ASCII strings. *)
Definition asciiLower (s : jsstr) : jsstr :=
  map (fun c => if (65 <=? c) && (c <=? 90) then c + 32 else c) s.

(* ===================================================================== *)
(** ** The API interceptor (second part of the file) *)
(* ===================================================================== *)

(** [s.indexOf(p) === 0] holds when [p] starts [s]. *)
Fixpoint startsWith (p s : jsstr) : bool :=
  match p, s with
  | [], _ => true
  | _ :: _, [] => false
  | a :: p', b :: s' => (a =? b) && startsWith p' s'
  end.

(** [s.indexOf(p)]: the first position where [p] occurs, or -1. *)
Fixpoint indexOf (p s : jsstr) : Z :=
  if startsWith p s then 0
  else
    match s with
    | [] => -1
    | _ :: rest => let k := indexOf p rest in if k <? 0 then -1 else k + 1
    end.

(** [s.replace(p, r)] for a string pattern: the first occurrence only. *)
Fixpoint replace (p r s : jsstr) : jsstr :=
  if startsWith p s then r ++ skipn (length p) s
  else
    match s with
    | [] => []
    | c :: rest => c :: replace p r rest
    end.

(** [text.split(" ")]. *)
Fixpoint splitSpaces (text : jsstr) : list jsstr :=
  match text with
  | [] => [[]]
  | c :: rest =>
      if c =? 32 then [] :: splitSpaces rest
      else
        match splitSpaces rest with
        | word :: more => (c :: word) :: more
        | [] => [[c]]
        end
  end.

(** The data handed to [JSON.stringify]. *)
Unset Elimination Schemes.
Inductive Json : Type :=
| JString (s : jsstr)
| JBool (b : bool)
| JArray (items : list Json)
| JObject (fields : list (string * Json)).
Set Elimination Schemes.

(** The stream of [streamingResponse]: the closure variables [words] and
    [i], the chunks given to [controller.enqueue] so far (oldest first)
    and whether [controller.close] was called. *)
Record ChatStream : Type := {
  words : list jsstr;
  index_i : nat;
  enqueued : list (list Z);
  closed : bool
}.

Inductive Body : Type :=
| BodyJson (data : Json)
| BodyText (text : jsstr)
| BodyStream (stream : ChatStream).

Record Response : Type := {
  status : Z;
  contentType : option string;
  body : Body
}.

(** [jsonResponse(data, status)]; [None] is an omitted status. *)
Definition jsonResponse (data : Json) (st : option Z) : Response :=
  let st := match st with
            | Some n => if n =? 0 then 200 else n
            | None => 200
            end in
  {| status := st; contentType := Some "application/json"%string; body := BodyJson data |}.

Definition emptyOk : Response := jsonResponse (JObject []) None.

(** One call of the [pull] function of the stream. *)
Definition pull (st : ChatStream) : ChatStream :=
  if (length (words st) <=? index_i st)%nat then
    {| words := words st; index_i := index_i st; enqueued := enqueued st;
       closed := true |}
  else
    let chunk :=
      nth (index_i st) (words st) []
      ++ (if (index_i st <? length (words st) - 1)%nat then lit " " else []) in
    {| words := words st; index_i := S (index_i st);
       enqueued := enqueued st ++ [TextEncoder_encode chunk];
       closed := closed st |}.

(** The stream as [streamingResponse] creates it. *)
Definition newStream (text : jsstr) : ChatStream :=
  {| words := splitSpaces text; index_i := 0; enqueued := []; closed := false |}.

Definition streamingResponse (text : jsstr) : Response :=
  {| status := 200; contentType := Some "text/plain; charset=utf-8"%string;
     body := BodyStream (newStream text) |}.

Definition COMING_SOON_CHAT : jsstr :=
  lit "**API access coming soon!**" ++ [10; 10]
  ++ lit "EU-compliant AI endpoints are under development. "
  ++ lit "Full chat, image generation, and other AI features will be available here shortly."
  ++ [10; 10]
  ++ lit "In the meantime, visit the documentation for API integration details.".

Definition DUMMY_AD : Json :=
  JObject
    [("selection"%string,
      JArray
        [JObject
           [("adHeadline"%string, JString (lit "DeepAI Pro"));
            ("adText"%string,
             JString (lit "Unlimited AI generation across all models with priority access and no ads."));
            ("adName"%string, JString (lit "DeepAI"));
            ("adUrl"%string, JString (lit "pricing.html"));
            ("adCTA"%string, JString (lit "Explore Pro Plans"))]])].

Definition detail (msg : string) : Json :=
  JObject [("detail"%string, JString (lit msg))].

Definition handlePost (path : jsstr) : Response :=
  if bool_decide (path = lit "/hacking_is_a_serious_crime")
  then streamingResponse COMING_SOON_CHAT
  else if indexOf (lit "/api/") path =? 0 then
    let modelId :=
      match replace (lit "/api/") [] path with
      | [] => lit "unknown"
      | c :: rest => c :: rest
      end in
    jsonResponse
      (JObject
         [("err"%string,
           JString (lit "Coming soon " ++ [8212] ++ lit " the " ++ modelId
                    ++ lit " endpoint is not yet available on the EU instance."))])
      None
  else if bool_decide (path = lit "/prorata-ad-proxy") then jsonResponse DUMMY_AD None
  else if bool_decide (path = lit "/log_stat") || bool_decide (path = lit "/favicon.ico")
  then emptyOk
  else if bool_decide (path = lit "/daily-time-sync/login/")
  then jsonResponse (detail "Login is not available on this instance.") (Some 400)
  else if bool_decide (path = lit "/daily-time-sync/registration/")
  then jsonResponse (detail "Registration is not available on this instance.") (Some 400)
  else if bool_decide (path = lit "/daily-time-sync/logout/")
  then jsonResponse (detail "ok") None
  else if bool_decide (path = lit "/add_remove_heart") then emptyOk
  else if bool_decide (path = lit "/get_user_login_type")
  then jsonResponse (JObject [("user_exists"%string, JBool false)]) None
  else if bool_decide (path = lit "/password_reset_trigger") then emptyOk
  else if bool_decide (path = lit "/save_custom_signup_data") then emptyOk
  else if bool_decide (path = lit "/update_auto_top_up_settings")
  then jsonResponse (JObject [("error"%string, JString (lit "Not available"))]) (Some 400)
  else if indexOf (lit "/dashboard/") path =? 0
  then jsonResponse (detail "Not available") (Some 401)
  else if indexOf (lit "/gallery-item-download/") path =? 0
  then jsonResponse (detail "Not available") (Some 401)
  else emptyOk.

(** The stream after at most [fuel] calls of [pull], none after closing. *)
Fixpoint pullAll (fuel : nat) (st : ChatStream) : ChatStream :=
  match fuel with
  | O => st
  | S fuel' => if closed st then st else pullAll fuel' (pull st)
  end.

(** The chunk [pull] makes of word [j]. *)
Definition chunkAt (ws : list jsstr) (j : nat) : jsstr :=
  nth j ws [] ++ (if (j <? length ws - 1)%nat then lit " " else []).

(** The chunks of a list of words: a space after each word but the last. *)
Fixpoint chunksOf (ws : list jsstr) : list jsstr :=
  match ws with
  | [] => []
  | word :: more =>
      match more with
      | [] => [word]
      | _ :: _ => (word ++ lit " ") :: chunksOf more
      end
  end.

(* ===================================================================== *)
(** ** Vocabulary of the statements *)
(* ===================================================================== *)

(** All three storage methods return. *)
Definition storeWorks (env : Env) : bool :=
  storage_getItem_ok env && storage_setItem_ok env && storage_removeItem_ok env.

(** [n] calls of [assignFairBucket], one after the other. *)
Fixpoint assignTimes (env : Env) (n : nat) : M (list jsstr) :=
  match n with
  | O => ret []
  | S n' =>
      b <- assignFairBucket env ;;
      bs <- assignTimes env n' ;;
      ret (b :: bs)
  end.

(** A computation that neither reads nor writes the store: whatever the
    store holds, it gives the same result and hands the store on as is. *)
Definition storeBlind {A : Type} (m : M A) : Prop :=
  forall w st, m (with_storage st w) = (fst (m w), with_storage st (snd (m w))).

(** A computation that only adds events satisfying [P] to the trace. *)
Definition addsOnly (P : Event -> bool) {A : Type} (m : M A) : Prop :=
  forall w, exists evs, trace (snd (m w)) = evs ++ trace w /\ forallb P evs = true.

Definition noStoreAccess (e : Event) : bool := negb (isStoreAccess e).

(** An event that neither writes the store nor computes a score. *)
Definition readsOnly (e : Event) : bool :=
  negb (isStoreWrite e) && negb (isComputation e).

(** What [assignFairBucket] does with a freshly computed bucket. *)
Definition persistAutomatic (env : Env) (bucket : jsstr) : M unit :=
  saveBucket env bucket ;;;
  setManualOverride env false ;;;
  console LOG "[Splitter] New assignment:".

(** No usable address: [getGeoIP] is missing, fails, or gives an address
    that is empty once trimmed. *)
Definition providerUnavailable (env : Env) : bool :=
  match getGeoIP env with
  | GeoIP_absent | GeoIP_throws => true
  | GeoIP_ip s => negb (truthy (Some (trim s)))
  end.

(** The identity key built from the [n]-th [Math.random()] result. *)
Definition randomKeyAt (env : Env) (n : nat) : jsstr :=
  toLowerCase env
    (trim (randomIdOf (Math_random env n) ++ lit "|" ++ default [] (userAgent env))).

(** A string value proper: every element is a 16-bit code unit. *)
Definition isString (s : jsstr) : bool := forallb isCodeUnit s.

Definition isOctet (b : Z) : bool := (0 <=? b) && (b <? 256).

(** The loop of [strToUtf8Bytes] by recursion on the text still to read. *)
Fixpoint percentDecode (enc : jsstr) : list JsNumber :=
  match enc with
  | [] => []
  | ch :: rest =>
      if ch =? 37 then
        match rest with
        | a :: b :: rest' => parseInt16 [a; b] :: percentDecode rest'
        | _ => [parseInt16 rest]
        end
      else Num ch :: percentDecode rest
  end.

(** Reading back the escape of the octet [b] gives [b]. *)
Definition escapeReadsBack (b : Z) : bool :=
  match parseInt16 [hexDigit (b / 16); hexDigit (b mod 16)] with
  | Num z => z =? b
  | NaN => false
  end.

(** Every storage method throws (storage disabled). *)
Definition storeBroken (env : Env) : bool :=
  negb (storage_getItem_ok env) && negb (storage_setItem_ok env)
  && negb (storage_removeItem_ok env).

(** Two stores that agree on every key but the two of the splitter. *)
Definition sameElsewhere (m m' : gmap jsstr jsstr) : Prop :=
  forall k, k <> FAIR_BUCKET_STORAGE_KEY -> k <> FAIR_BUCKET_MANUAL_KEY ->
            m' !! k = m !! k.

(** A computation that leaves every other key of the store as it was. *)
Definition keepsOtherKeys {A : Type} (m : M A) : Prop :=
  forall w, sameElsewhere (storage w) (storage (snd (m w))).

(** The manual flag is not set over a missing assignment. *)
Definition flagConsistent (w : World) : Prop :=
  storage w !! FAIR_BUCKET_MANUAL_KEY = Some (lit "true") ->
  truthy (storage w !! FAIR_BUCKET_STORAGE_KEY) = true.

(** The score [hashToUint32] returns, as a function of browser and text:
    the first word of the digest when there is one, else FNV-1a. *)
Definition scoreOf (env : Env) (text : jsstr) : Z :=
  match encodeInput env text with
  | Some bytes =>
      match subtle_digest env bytes with
      | Some buffer =>
          match DataView_getUint32 env buffer with
          | Some v => js_ushr0 v
          | None => firstWord_u8 buffer
          end
      | None => fnv1a32 text
      end
  | None => fnv1a32 text
  end.

(** The identity key when the GeoIP provider gives the address [ip]. *)
Definition stableKey (env : Env) (ip : jsstr) : jsstr :=
  toLowerCase env (trim (trim ip ++ lit "|" ++ default [] (userAgent env))).

(* ===================================================================== *)
(** ** Concrete browsers *)
(* ===================================================================== *)

(** [Math.random()] giving 0.5 first ("0.i" in base 36) and 0.75 ("0.r")
    on every later call. *)
Definition halfThenThreeQuarters (n : nat) : RandomDraw :=
  match n with
  | O => {| base36 := lit "0.i"; scaled32 := 2147483648 |}
  | S _ => {| base36 := lit "0.r"; scaled32 := 3221225472 |}
  end.

(** A browser with a working store and identity but no [crypto.subtle]. *)
Definition legacyBrowser : Env :=
  {| storage_getItem_ok := true; storage_setItem_ok := true;
     storage_removeItem_ok := true;
     getGeoIP := GeoIP_ip (lit "1.2.3.4");
     userAgent := Some (lit "Test-Agent");
     toLowerCase := asciiLower;
     has_TextEncoder := false;
     subtle_digest := fun _ => None;
     has_DataView := false;
     getRandomValues := None;
     Math_random := halfThenThreeQuarters |}.

(** The same browser without a GeoIP provider. *)
Definition offlineBrowser : Env :=
  {| storage_getItem_ok := true; storage_setItem_ok := true;
     storage_removeItem_ok := true;
     getGeoIP := GeoIP_absent;
     userAgent := Some (lit "Test-Agent");
     toLowerCase := asciiLower;
     has_TextEncoder := false;
     subtle_digest := fun _ => None;
     has_DataView := false;
     getRandomValues := None;
     Math_random := halfThenThreeQuarters |}.

(** A stand-in for the digest: 32 octets, the first from the input. *)
Definition toyDigest (bytes : list Z) : option (list Z) :=
  Some ([fold_left Z.add bytes 0 mod 256; 1; 2; 3] ++ repeat 0 28).

(** A browser with every capability. *)
Definition modernBrowser : Env :=
  {| storage_getItem_ok := true; storage_setItem_ok := true;
     storage_removeItem_ok := true;
     getGeoIP := GeoIP_ip (lit " 10.0.0.7 ");
     userAgent := Some (lit "Mozilla/5.0");
     toLowerCase := asciiLower;
     has_TextEncoder := true;
     subtle_digest := toyDigest;
     has_DataView := true;
     getRandomValues := Some (fun n => Z.of_nat n);
     Math_random := halfThenThreeQuarters |}.

(** The same without [TextEncoder] and [DataView]. *)
Definition agedBrowser : Env :=
  {| storage_getItem_ok := true; storage_setItem_ok := true;
     storage_removeItem_ok := true;
     getGeoIP := GeoIP_ip (lit " 10.0.0.7 ");
     userAgent := Some (lit "Mozilla/5.0");
     toLowerCase := asciiLower;
     has_TextEncoder := false;
     subtle_digest := toyDigest;
     has_DataView := false;
     getRandomValues := Some (fun n => Z.of_nat n);
     Math_random := halfThenThreeQuarters |}.

(** [localStorage.setItem] throws (quota exceeded); the rest works. *)
Definition quotaBrowser : Env :=
  {| storage_getItem_ok := true; storage_setItem_ok := false;
     storage_removeItem_ok := true;
     getGeoIP := GeoIP_ip (lit "1.2.3.4");
     userAgent := Some (lit "Test-Agent");
     toLowerCase := asciiLower;
     has_TextEncoder := false;
     subtle_digest := fun _ => None;
     has_DataView := false;
     getRandomValues := None;
     Math_random := halfThenThreeQuarters |}.

(** [localStorage.removeItem] throws; the rest works. *)
Definition stuckBrowser : Env :=
  {| storage_getItem_ok := true; storage_setItem_ok := true;
     storage_removeItem_ok := false;
     getGeoIP := GeoIP_ip (lit "1.2.3.4");
     userAgent := Some (lit "Test-Agent");
     toLowerCase := asciiLower;
     has_TextEncoder := false;
     subtle_digest := fun _ => None;
     has_DataView := false;
     getRandomValues := None;
     Math_random := halfThenThreeQuarters |}.

(** Storage is disabled altogether. *)
Definition privateBrowser : Env :=
  {| storage_getItem_ok := false; storage_setItem_ok := false;
     storage_removeItem_ok := false;
     getGeoIP := GeoIP_ip (lit "1.2.3.4");
     userAgent := Some (lit "Test-Agent");
     toLowerCase := asciiLower;
     has_TextEncoder := false;
     subtle_digest := fun _ => None;
     has_DataView := false;
     getRandomValues := None;
     Math_random := halfThenThreeQuarters |}.

(** A manual override to "B", beside a key of some other script. *)
Definition manualWorld : World :=
  {| storage := {[ FAIR_BUCKET_STORAGE_KEY := lit "B";
                   FAIR_BUCKET_MANUAL_KEY := lit "true";
                   lit "theme" := lit "dark" ]};
     mathRandomCalls := 0; cryptoCalls := 0; trace := [] |}.

(** The manual flag alone, without an assignment. *)
Definition staleFlagWorld : World :=
  {| storage := {[ FAIR_BUCKET_MANUAL_KEY := lit "true" ]};
     mathRandomCalls := 0; cryptoCalls := 0; trace := [] |}.

(** A store holding the empty string under the key. *)
Definition blankWorld : World :=
  {| storage := {[ FAIR_BUCKET_STORAGE_KEY := [] ]};
     mathRandomCalls := 0; cryptoCalls := 0; trace := [] |}.

(** A state after one [Math.random()] call. *)
Definition laterWorld : World :=
  {| storage := ∅; mathRandomCalls := 1; cryptoCalls := 0; trace := [] |}.

Definition freshWorld : World :=
  {| storage := ∅; mathRandomCalls := 0; cryptoCalls := 0; trace := [] |}.

(** A store in which some other script left ["control"] under the key. *)
Definition foreignWorld : World :=
  {| storage := {[ FAIR_BUCKET_STORAGE_KEY := lit "control" ]};
     mathRandomCalls := 0; cryptoCalls := 0; trace := [] |}.

(** Unfolds the sequencing of effects. *)
Ltac run := unfold bind, ret, emit, console; simpl.

(* ===================================================================== *)
(** ** 32-bit arithmetic *)
(* ===================================================================== *)

Lemma two32_pow : two32 = 2 ^ 32.
Proof. reflexivity. Qed.

Lemma ToUint32_range (z : Z) : 0 <= ToUint32 z <= 4294967295.
Proof. unfold ToUint32, two32. pose proof (Z.mod_pos_bound z 4294967296). lia. Qed.

Lemma js_ushr0_range (z : Z) : 0 <= js_ushr0 z <= 4294967295.
Proof. apply ToUint32_range. Qed.

(** [ToInt32] only moves a number by a multiple of 2^32. *)
Lemma ToInt32_shift (z : Z) : exists q, ToInt32 z = z + two32 * q.
Proof.
  exists (- ((z + 2147483648) / two32)). unfold ToInt32.
  rewrite (Z.mod_eq (z + 2147483648) two32) by (unfold two32; lia). lia.
Qed.

Lemma mod_two32_shift (a b q : Z) : a = b + two32 * q -> a mod two32 = b mod two32.
Proof.
  intros ->. rewrite (Z.mul_comm two32 q).
  apply Z_mod_plus_full.
Qed.

Lemma mod_two32_diff (a b : Z) :
  a mod two32 = b mod two32 -> exists q, a = b + two32 * q.
Proof.
  intros H. exists (a / two32 - b / two32).
  pose proof (Z.div_mod a two32). pose proof (Z.div_mod b two32).
  unfold two32 in *. lia.
Qed.

(** XOR acts bit by bit, so it commutes with keeping the low [n] bits. *)
Lemma lxor_mod_pow2 (a b n : Z) :
  0 <= n -> Z.lxor a b mod 2 ^ n = Z.lxor (a mod 2 ^ n) (b mod 2 ^ n).
Proof.
  intros Hn. apply Z.bits_inj'. intros i Hi.
  rewrite Z.lxor_spec, !Z.testbit_mod_pow2 by lia.
  destruct (i <? n); [ apply Z.lxor_spec | reflexivity ].
Qed.

Lemma ToInt32_mod (z : Z) : ToInt32 z mod two32 = z mod two32.
Proof. destruct (ToInt32_shift z) as [q ->]. now apply mod_two32_shift with q. Qed.

Lemma js_xor_mod (h c : Z) : js_xor h c mod two32 = Z.lxor h c mod two32.
Proof.
  unfold js_xor. rewrite ToInt32_mod, two32_pow.
  rewrite !lxor_mod_pow2 by lia. rewrite <- two32_pow.
  now rewrite !ToInt32_mod.
Qed.

Lemma js_shl_shift (a k : Z) :
  0 <= k < 32 -> exists q, js_shl a k = a * 2 ^ k + two32 * q.
Proof.
  intros Hk. unfold js_shl. rewrite (Z.mod_small k 32) by lia.
  rewrite Z.shiftl_mul_pow2 by lia.
  destruct (ToInt32_shift a) as [q1 ->].
  destruct (ToInt32_shift ((a + two32 * q1) * 2 ^ k)) as [q2 ->].
  exists (q1 * 2 ^ k + q2). lia.
Qed.

(* ===================================================================== *)
(** ** FNV-1a: the loop of the source against the two textbook forms *)
(* ===================================================================== *)

Lemma fnv1a_spec_step_mul (h c : Z) : fnv1a_spec_step h c = fnv1a_mul_step h c.
Proof.
  unfold fnv1a_spec_step, fnv1a_mul_step.
  rewrite !Z.shiftl_mul_pow2 by lia. f_equal. lia.
Qed.

Lemma fnv1a32_step_mul (h c : Z) : fnv1a32_step h c = fnv1a_mul_step h c.
Proof.
  unfold fnv1a32_step, fnv1a_mul_step, js_ushr0, ToUint32.
  rewrite <- two32_pow.
  destruct (mod_two32_diff _ _ (js_xor_mod h c)) as [q0 E0].
  destruct (js_shl_shift (js_xor h c) 1) as [q1 E1]; [lia|].
  destruct (js_shl_shift (js_xor h c) 4) as [q4 E4]; [lia|].
  destruct (js_shl_shift (js_xor h c) 7) as [q7 E7]; [lia|].
  destruct (js_shl_shift (js_xor h c) 8) as [q8 E8]; [lia|].
  destruct (js_shl_shift (js_xor h c) 24) as [q24 E24]; [lia|].
  rewrite E1, E4, E7, E8, E24, E0.
  apply mod_two32_shift
    with (q := q0 * 16777619 + q1 + q4 + q7 + q8 + q24).
  change (2 ^ 1) with 2. change (2 ^ 4) with 16. change (2 ^ 7) with 128.
  change (2 ^ 8) with 256. change (2 ^ 24) with 16777216.
  lia.
Qed.

Lemma fold_left_ext_step {A B : Type} (f g : A -> B -> A) :
  (forall a b, f a b = g a b) ->
  forall l a, fold_left f l a = fold_left g l a.
Proof.
  intros Hfg l. induction l as [|b l IH]; intros a; simpl.
  - reflexivity.
  - rewrite Hfg. apply IH.
Qed.

Lemma fnv1a_mul_acc_range (str : jsstr) (h : Z) :
  0 <= h < two32 -> 0 <= fold_left fnv1a_mul_step str h < two32.
Proof.
  revert h. induction str as [|c str IH]; intros h Hh; simpl.
  - exact Hh.
  - apply IH. unfold fnv1a_mul_step. rewrite <- two32_pow.
    apply Z.mod_pos_bound. unfold two32. lia.
Qed.

Lemma fnv1a32_mul (str : jsstr) : fnv1a32 str = fnv1a_mul str.
Proof.
  unfold fnv1a32, fnv1a_mul, js_ushr0, ToUint32.
  rewrite (fold_left_ext_step _ _ fnv1a32_step_mul).
  apply Z.mod_small. apply fnv1a_mul_acc_range. unfold two32. lia.
Qed.

Lemma fnv1a_spec_mul (str : jsstr) : fnv1a_spec str = fnv1a_mul str.
Proof.
  unfold fnv1a_spec, fnv1a_mul.
  apply fold_left_ext_step, fnv1a_spec_step_mul.
Qed.

Lemma fnv1a32_range (str : jsstr) : 0 <= fnv1a32 str <= 4294967295.
Proof. apply js_ushr0_range. Qed.

(* ===================================================================== *)
(** ** The hash chain *)
(* ===================================================================== *)

Lemma firstWord_u8_range (u8 : list Z) : 0 <= firstWord_u8 u8 <= 4294967295.
Proof. apply js_ushr0_range. Qed.

Lemma sha256Stage_range (env : Env) (text : jsstr) (w : World) (score : Z) :
  fst (sha256Stage env text w) = Some score -> 0 <= score <= 4294967295.
Proof.
  unfold sha256Stage, bind, ret, emit.
  destruct (encodeInput env text) as [bytes|]; simpl; [|discriminate].
  destruct (subtle_digest env bytes) as [buffer|]; simpl; [|discriminate].
  destruct (DataView_getUint32 env buffer) as [v|]; simpl;
    intros [= <-]; [ apply js_ushr0_range | apply firstWord_u8_range ].
Qed.

(** The first stage fails exactly when no bytes can be produced or the
    digest is unavailable. *)
Lemma sha256Stage_None (env : Env) (text : jsstr) (w : World) :
  fst (sha256Stage env text w) = None <->
  encodeInput env text = None \/
  exists bytes, encodeInput env text = Some bytes /\ subtle_digest env bytes = None.
Proof.
  unfold sha256Stage, bind, ret, emit.
  destruct (encodeInput env text) as [bytes|]; simpl.
  - destruct (subtle_digest env bytes) as [buffer|] eqn:Hd; simpl.
    + destruct (DataView_getUint32 env buffer); simpl; split;
        try discriminate; intros [H | (b & [= <-] & H)]; congruence.
    + split; [ intros _; right; eauto | reflexivity ].
  - split; [ intros _; now left | reflexivity ].
Qed.

Lemma randomStage_range (env : Env) (w : World) :
  0 <= fst (randomStage env w) <= 4294967295.
Proof.
  unfold randomStage. destruct (getRandomValues env) as [fill|]; simpl;
    apply js_ushr0_range.
Qed.

Lemma hashToUint32_fallback (env : Env) (text : jsstr) (w : World) :
  fst (sha256Stage env text w) = None ->
  fst (hashToUint32 env text w) = fnv1a32 text.
Proof.
  unfold hashToUint32, bind.
  destruct (sha256Stage env text w) as [r w1]; simpl.
  intros ->. reflexivity.
Qed.

(** C1. The bucket mapper is the threshold function: on the range of
    unsigned 32-bit scores it answers "A" exactly for the scores at or
    above 2147483648 and "B" exactly for those below; 2147483648 and
    4294967295 map to "A", 0 and 2147483647 to "B". *)
Theorem bucketOfScore_threshold (score : Z) :
  0 <= score <= 4294967295 ->
  (bucketOfScore score = lit "A" <-> 2147483648 <= score) /\
  (bucketOfScore score = lit "B" <-> score < 2147483648) /\
  bucketOfScore 2147483648 = lit "A" /\
  bucketOfScore 4294967295 = lit "A" /\
  bucketOfScore 0 = lit "B" /\
  bucketOfScore 2147483647 = lit "B".
Proof.
  intros _. unfold bucketOfScore, EXACT_MIDDLE_POINT.
  repeat split; try reflexivity;
    destruct (Z.leb_spec 2147483648 score); simpl;
    try discriminate; try lia; reflexivity.
Qed.

Lemma bucketOfScore_threshold_witness :
  bucketOfScore 3000000000 = lit "A" <-> 2147483648 <= 3000000000.
Proof.
  apply (bucketOfScore_threshold 3000000000). lia.
Defined.

(** C2. For every input string and every browser, the hash chain returns,
    and what it returns is an unsigned 32-bit integer; the random stages
    on their own stay in that range as well. *)
Theorem hashToUint32_uint32 (env : Env) (text : jsstr) (w : World) :
  0 <= fst (hashToUint32 env text w) <= 4294967295 /\
  0 <= fst (randomStage env w) <= 4294967295.
Proof.
  split; [| apply randomStage_range ].
  unfold hashToUint32, bind.
  destruct (sha256Stage env text w) as [[score|] w1] eqn:E; simpl.
  - apply (sha256Stage_range env text w). now rewrite E.
  - apply fnv1a32_range.
Qed.

(** C4. When the first stage fails, the hash chain returns the FNV-1a hash
    of the code units: offset basis 0x811c9dc5, then per code unit an XOR
    and the shift-and-add update modulo 2^32, which is multiplication by
    16777619.  The value does not depend on the browser or its state; for
    "1.2.3.4|test-agent" it is 566215699. *)
Theorem hashToUint32_fnv1a (env : Env) (text : jsstr) (w : World) :
  fst (sha256Stage env text w) = None ->
  fst (hashToUint32 env text w) = fnv1a_spec text /\
  fnv1a_spec text = fnv1a_mul text /\
  (forall env' w', fst (sha256Stage env' text w') = None ->
     fst (hashToUint32 env' text w') = fst (hashToUint32 env text w)) /\
  fnv1a_spec (lit "1.2.3.4|test-agent") = 566215699.
Proof.
  intros H. split; [| split; [| split ] ].
  - rewrite (hashToUint32_fallback _ _ _ H), fnv1a32_mul. symmetry. apply fnv1a_spec_mul.
  - apply fnv1a_spec_mul.
  - intros env' w' H'.
    now rewrite (hashToUint32_fallback _ _ _ H), (hashToUint32_fallback _ _ _ H').
  - vm_compute. reflexivity.
Qed.

Lemma hashToUint32_fnv1a_witness :
  fst (hashToUint32 legacyBrowser (lit "1.2.3.4|test-agent") freshWorld)
  = fnv1a_spec (lit "1.2.3.4|test-agent") /\
  fst (hashToUint32 offlineBrowser (lit "1.2.3.4|test-agent") laterWorld)
  = fst (hashToUint32 legacyBrowser (lit "1.2.3.4|test-agent") freshWorld).
Proof.
  split.
  - apply (hashToUint32_fnv1a legacyBrowser (lit "1.2.3.4|test-agent") freshWorld).
    reflexivity.
  - apply (hashToUint32_fnv1a legacyBrowser (lit "1.2.3.4|test-agent") freshWorld);
      reflexivity.
Defined.

(* ===================================================================== *)
(** ** Framing: computations that leave the store alone *)
(* ===================================================================== *)

Lemma with_storage_same (w : World) : with_storage (storage w) w = w.
Proof. now destruct w. Qed.

Lemma storeBlind_storage {A : Type} (m : M A) (w : World) :
  storeBlind m -> storage (snd (m w)) = storage w.
Proof.
  intros Hm. specialize (Hm w (storage w)).
  rewrite with_storage_same in Hm.
  now rewrite Hm at 1.
Qed.

Lemma storeBlind_ret {A : Type} (a : A) : storeBlind (ret a).
Proof. now intros w st. Qed.

Lemma storeBlind_bind {A B : Type} (m : M A) (k : A -> M B) :
  storeBlind m -> (forall a, storeBlind (k a)) -> storeBlind (bind m k).
Proof.
  intros Hm Hk w st. unfold bind. rewrite Hm.
  destruct (m w) as [a w1]. simpl. apply Hk.
Qed.

Lemma addsOnly_ret (P : Event -> bool) {A : Type} (a : A) : addsOnly P (ret a).
Proof. intros w. now exists []. Qed.

Lemma addsOnly_bind (P : Event -> bool) {A B : Type} (m : M A) (k : A -> M B) :
  addsOnly P m -> (forall a, addsOnly P (k a)) -> addsOnly P (bind m k).
Proof.
  intros Hm Hk w. unfold bind.
  destruct (Hm w) as (evs1 & E1 & F1).
  destruct (m w) as [a w1]. simpl in E1.
  destruct (Hk a w1) as (evs2 & E2 & F2).
  exists (evs2 ++ evs1). split.
  - now rewrite E2, E1, app_assoc.
  - rewrite forallb_app. now rewrite F1, F2.
Qed.

Lemma addsOnly_emit (P : Event -> bool) (e : Event) :
  P e = true -> addsOnly P (emit e).
Proof. intros He w. exists [e]. simpl. now rewrite He. Qed.

Section Frames.

Context (env : Env).

Lemma storeBlind_getMyIpAddress : storeBlind (getMyIpAddress env).
Proof.
  intros w st. unfold getMyIpAddress, Math_random_call. run.
  destruct (getGeoIP env) as [| |s]; simpl; try reflexivity.
  destruct (trim s); reflexivity.
Qed.

Lemma addsOnly_getMyIpAddress : addsOnly noStoreAccess (getMyIpAddress env).
Proof.
  intros w. unfold getMyIpAddress, Math_random_call. run.
  destruct (getGeoIP env) as [| |s]; simpl.
  - now eexists [_; _].
  - now eexists [_; _; _; _].
  - destruct (trim s); simpl;
      [ now eexists [_; _; _] | now eexists [_] ].
Qed.

Lemma storeBlind_buildHashInput : storeBlind (buildHashInput env).
Proof.
  unfold buildHashInput.
  apply storeBlind_bind; [ apply storeBlind_getMyIpAddress | intros ip ].
  apply storeBlind_bind; [| intros ua; apply storeBlind_ret ].
  destruct (userAgent env); now intros w st.
Qed.

Lemma addsOnly_buildHashInput : addsOnly noStoreAccess (buildHashInput env).
Proof.
  unfold buildHashInput.
  apply addsOnly_bind; [ apply addsOnly_getMyIpAddress | intros ip ].
  apply addsOnly_bind; [| intros ua; apply addsOnly_ret ].
  destruct (userAgent env); [ apply addsOnly_ret |].
  apply addsOnly_bind; [ now apply addsOnly_emit | intros _; apply addsOnly_ret ].
Qed.

(** Building the identity key always shows in the trace: it calls the
    GeoIP provider or [Math.random()].  A trace without such an event has
    no recomputation in it. *)
Lemma buildHashInput_computes (w : World) :
  exists evs, trace (snd (buildHashInput env w)) = evs ++ trace w /\
              existsb isComputation evs = true.
Proof.
  unfold buildHashInput, getMyIpAddress, Math_random_call. run.
  destruct (getGeoIP env) as [| |s]; simpl.
  - destruct (userAgent env); simpl; [ now eexists [_; _] | now eexists [_; _; _] ].
  - destruct (userAgent env); simpl;
      [ now eexists [_; _; _; _] | now eexists [_; _; _; _; _] ].
  - destruct (trim s); simpl; destruct (userAgent env); simpl;
      [ now eexists [_; _; _] | now eexists [_; _; _; _]
      | now eexists [_] | now eexists [_; _] ].
Qed.

Lemma storeBlind_sha256Stage (text : jsstr) : storeBlind (sha256Stage env text).
Proof.
  intros w st. unfold sha256Stage. run.
  destruct (encodeInput env text) as [bytes|]; simpl; [| reflexivity ].
  destruct (subtle_digest env bytes) as [buffer|]; simpl; [| reflexivity ].
  destruct (DataView_getUint32 env buffer); reflexivity.
Qed.

Lemma addsOnly_sha256Stage (text : jsstr) :
  addsOnly noStoreAccess (sha256Stage env text).
Proof.
  intros w. unfold sha256Stage. run.
  destruct (encodeInput env text) as [bytes|]; simpl; [| now exists [] ].
  destruct (subtle_digest env bytes) as [buffer|]; simpl; [| now eexists [_] ].
  destruct (DataView_getUint32 env buffer); now eexists [_].
Qed.

Lemma storeBlind_randomStage : storeBlind (randomStage env).
Proof.
  intros w st. unfold randomStage, Math_random_call. run.
  destruct (getRandomValues env); reflexivity.
Qed.

Lemma addsOnly_randomStage : addsOnly noStoreAccess (randomStage env).
Proof.
  intros w. unfold randomStage, Math_random_call. run.
  destruct (getRandomValues env); simpl; [ now eexists [_] | now eexists [_; _] ].
Qed.

Lemma storeBlind_hashToUint32 (text : jsstr) : storeBlind (hashToUint32 env text).
Proof.
  unfold hashToUint32.
  apply storeBlind_bind; [ apply storeBlind_sha256Stage | intros [score|] ].
  - apply storeBlind_ret.
  - now intros w st.
Qed.

Lemma addsOnly_hashToUint32 (text : jsstr) :
  addsOnly noStoreAccess (hashToUint32 env text).
Proof.
  unfold hashToUint32.
  apply addsOnly_bind; [ apply addsOnly_sha256Stage | intros [score|] ].
  - apply addsOnly_ret.
  - apply addsOnly_bind; [ now apply addsOnly_emit | intros _ ].
    apply addsOnly_ret.
Qed.

Lemma storeBlind_getHashBasedBucket : storeBlind (getHashBasedBucket env).
Proof.
  unfold getHashBasedBucket.
  apply storeBlind_bind; [ apply storeBlind_buildHashInput | intros key ].
  apply storeBlind_bind; [ apply storeBlind_hashToUint32 | intros score ].
  apply storeBlind_ret.
Qed.

Lemma addsOnly_getHashBasedBucket : addsOnly noStoreAccess (getHashBasedBucket env).
Proof.
  unfold getHashBasedBucket.
  apply addsOnly_bind; [ apply addsOnly_buildHashInput | intros key ].
  apply addsOnly_bind; [ apply addsOnly_hashToUint32 | intros score ].
  apply addsOnly_ret.
Qed.

End Frames.

(** C7. [getHashBasedBucket] neither reads nor writes the store: the store
    (so both persisted fields) is the same after the call, no storage
    method is called, the answer is the same whatever the store holds, and
    it is the bucket of the score of the identity key. *)
Theorem getHashBasedBucket_pure_on_store (env : Env) (w : World) :
  storage (snd (getHashBasedBucket env w)) = storage w /\
  (exists evs, trace (snd (getHashBasedBucket env w)) = evs ++ trace w /\
               forallb noStoreAccess evs = true) /\
  (forall st, fst (getHashBasedBucket env (with_storage st w))
              = fst (getHashBasedBucket env w)) /\
  (let (key, w1) := buildHashInput env w in
   fst (getHashBasedBucket env w) = bucketOfScore (fst (hashToUint32 env key w1))).
Proof.
  split; [| split; [| split ] ].
  - apply storeBlind_storage, storeBlind_getHashBasedBucket.
  - apply addsOnly_getHashBasedBucket.
  - intros st. now rewrite storeBlind_getHashBasedBucket.
  - unfold getHashBasedBucket, bind, ret.
    destruct (buildHashInput env w) as [key w1].
    now destruct (hashToUint32 env key w1).
Qed.

(* ===================================================================== *)
(** ** The assignment store and the orchestrator *)
(* ===================================================================== *)

Lemma keys_distinct : FAIR_BUCKET_STORAGE_KEY <> FAIR_BUCKET_MANUAL_KEY.
Proof. intros H. apply (f_equal (@length Z)) in H. discriminate H. Qed.

Lemma storeWorks_inv (env : Env) :
  storeWorks env = true ->
  storage_getItem_ok env = true /\ storage_setItem_ok env = true /\
  storage_removeItem_ok env = true.
Proof.
  unfold storeWorks.
  destruct (storage_getItem_ok env), (storage_setItem_ok env),
    (storage_removeItem_ok env); simpl; intros; try discriminate; auto.
Qed.

Lemma bucketOfScore_cases (score : Z) :
  bucketOfScore score = lit "A" \/ bucketOfScore score = lit "B".
Proof. unfold bucketOfScore. destruct (_ <=? _); auto. Qed.

Lemma getHashBasedBucket_cases (env : Env) (w : World) :
  fst (getHashBasedBucket env w) = lit "A" \/ fst (getHashBasedBucket env w) = lit "B".
Proof.
  unfold getHashBasedBucket, bind, ret.
  destruct (buildHashInput env w) as [key w1].
  destruct (hashToUint32 env key w1) as [score w2]. apply bucketOfScore_cases.
Qed.

Lemma getSavedBucket_Some (env : Env) (w : World) (s : jsstr) :
  fst (getSavedBucket env w) = Some s ->
  storage_getItem_ok env = true /\ storage w !! FAIR_BUCKET_STORAGE_KEY = Some s.
Proof.
  unfold getSavedBucket, localStorage_getItem. run.
  destruct (storage_getItem_ok env); simpl; [ auto | discriminate ].
Qed.

Lemma getSavedBucket_works (env : Env) (w : World) :
  storage_getItem_ok env = true ->
  getSavedBucket env w
  = (storage w !! FAIR_BUCKET_STORAGE_KEY, emitted (EvGetItem FAIR_BUCKET_STORAGE_KEY) w).
Proof. intros H. unfold getSavedBucket, localStorage_getItem. run. now rewrite H. Qed.

Lemma isManualOverride_works (env : Env) (w : World) :
  storage_getItem_ok env = true ->
  fst (isManualOverride env w)
  = bool_decide (storage w !! FAIR_BUCKET_MANUAL_KEY = Some (lit "true")).
Proof. intros H. unfold isManualOverride, localStorage_getItem. run. now rewrite H. Qed.

(** The branch of [assignFairBucket] for a stored, non-empty value. *)
Lemma assignFairBucket_existing (env : Env) (w : World) (s : jsstr) :
  storage_getItem_ok env = true ->
  storage w !! FAIR_BUCKET_STORAGE_KEY = Some s -> s <> [] ->
  assignFairBucket env w
  = (s, emitted (EvConsole LOG "[Splitter] Loaded existing bucket:")
          (emitted (EvGetItem FAIR_BUCKET_MANUAL_KEY)
             (emitted (EvGetItem FAIR_BUCKET_STORAGE_KEY) w))).
Proof.
  intros Hok Hs Hne.
  unfold assignFairBucket, bind. rewrite (getSavedBucket_works _ _ Hok), Hs.
  destruct s as [|c s]; [ congruence |]. simpl.
  unfold isManualOverride, localStorage_getItem. run. now rewrite Hok.
Qed.

(** The other branch: the bucket is the one [getHashBasedBucket] gives in
    the state after the read, and it is then persisted. *)
Lemma assignFairBucket_unassigned (env : Env) (w : World) :
  truthy (fst (getSavedBucket env w)) = false ->
  assignFairBucket env w
  = (let (b, w1) := getHashBasedBucket env (snd (getSavedBucket env w)) in
     (b, snd (persistAutomatic env b w1))).
Proof.
  intros Hf. unfold assignFairBucket, getHashBasedBucket, persistAutomatic, bind at 1.
  destruct (getSavedBucket env w) as [existing w0]. simpl in Hf. rewrite Hf. simpl.
  unfold bind, ret.
  destruct (buildHashInput env w0) as [key w1].
  destruct (hashToUint32 env key w1) as [score w2].
  destruct (saveBucket env (bucketOfScore score) w2) as [[] w3].
  destruct (setManualOverride env false w3) as [[] w4].
  now destruct (console LOG "[Splitter] New assignment:" w4).
Qed.

Lemma persistAutomatic_works (env : Env) (b : jsstr) (w : World) :
  storeWorks env = true ->
  snd (persistAutomatic env b w)
  = emitted (EvConsole LOG "[Splitter] New assignment:")
      (emitted (EvRemoveItem FAIR_BUCKET_MANUAL_KEY)
         (with_storage
            (delete FAIR_BUCKET_MANUAL_KEY (<[FAIR_BUCKET_STORAGE_KEY := b]> (storage w)))
            (emitted (EvSetItem FAIR_BUCKET_STORAGE_KEY b) w))).
Proof.
  intros H. destruct (storeWorks_inv _ H) as (Hg & Hs & Hr).
  unfold persistAutomatic, saveBucket, setManualOverride,
    localStorage_setItem, localStorage_removeItem. run.
  rewrite Hs. simpl. rewrite Hr. reflexivity.
Qed.

Lemma setFairBucket_works (env : Env) (b : jsstr) (w : World) :
  storeWorks env = true -> b = lit "A" \/ b = lit "B" ->
  snd (setFairBucket env b w)
  = emitted (EvConsole LOG "[Splitter] Manual override set:")
      (emitted (EvSetItem FAIR_BUCKET_MANUAL_KEY (lit "true"))
         (with_storage
            (<[FAIR_BUCKET_MANUAL_KEY := lit "true"]>
               (<[FAIR_BUCKET_STORAGE_KEY := b]> (storage w)))
            (emitted (EvSetItem FAIR_BUCKET_STORAGE_KEY b) w))).
Proof.
  intros H Hb. destruct (storeWorks_inv _ H) as (Hg & Hs & Hr).
  unfold setFairBucket, saveBucket, setManualOverride, localStorage_setItem. run.
  destruct Hb as [-> | ->]; simpl; rewrite !Hs; reflexivity.
Qed.

(** Any number of [assignFairBucket] calls over a stored, non-empty value
    return it and only read. *)
Lemma assignTimes_existing (env : Env) (s : jsstr) (n : nat) (w : World) :
  storage_getItem_ok env = true ->
  storage w !! FAIR_BUCKET_STORAGE_KEY = Some s -> s <> [] ->
  fst (assignTimes env n w) = repeat s n /\
  storage (snd (assignTimes env n w)) = storage w /\
  exists evs, trace (snd (assignTimes env n w)) = evs ++ trace w /\
              forallb readsOnly evs = true.
Proof.
  intros Hok. revert w. induction n as [|n IH]; intros w Hs Hne; simpl.
  - repeat split. now exists [].
  - unfold bind. rewrite (assignFairBucket_existing _ _ _ Hok Hs Hne).
    set (w1 := emitted _ _).
    destruct (IH w1 Hs Hne) as (Hr & Hst & evs & Ht & Hq).
    destruct (assignTimes env n w1) as [bs wn]. simpl in *.
    repeat split; [ now rewrite Hr | exact Hst |].
    exists (evs ++ [EvConsole LOG "[Splitter] Loaded existing bucket:";
                    EvGetItem FAIR_BUCKET_MANUAL_KEY;
                    EvGetItem FAIR_BUCKET_STORAGE_KEY]).
    split; [ now rewrite Ht, <- app_assoc |].
    rewrite forallb_app, Hq. reflexivity.
Qed.

Lemma filter_isSetItem_noStoreAccess (evs : list Event) :
  forallb noStoreAccess evs = true -> List.filter isSetItem evs = [].
Proof.
  induction evs as [|e evs IH]; simpl; [ reflexivity |].
  intros H. apply andb_true_iff in H as [He Hevs].
  rewrite (IH Hevs). now destruct e.
Qed.

Lemma lit_A_nonempty : lit "A" <> [].
Proof. discriminate. Qed.

Lemma bucket_nonempty (b : jsstr) : b = lit "A" \/ b = lit "B" -> b <> [].
Proof. intros [-> | ->]; discriminate. Qed.

(** C3. [assignFairBucket] is idempotent.  When [getSavedBucket] returns a
    present (non-empty) value, that value is returned, the store is left as
    it is and the call adds no store write and no score computation to the
    trace.  With a functioning store, two calls in a row return the same
    assignment, the second leaves the store as the first left it, and the
    two calls together call [setItem] at most once. *)
Theorem assignFairBucket_idempotent (env : Env) (w : World) :
  (forall s, fst (getSavedBucket env w) = Some s -> s <> [] ->
     fst (assignFairBucket env w) = s /\
     storage (snd (assignFairBucket env w)) = storage w /\
     mathRandomCalls (snd (assignFairBucket env w)) = mathRandomCalls w /\
     exists evs, trace (snd (assignFairBucket env w)) = evs ++ trace w /\
                 forallb readsOnly evs = true) /\
  (storeWorks env = true ->
     exists evs1 evs2,
       let (b1, w1) := assignFairBucket env w in
       let (b2, w2) := assignFairBucket env w1 in
       b2 = b1 /\ storage w2 = storage w1 /\
       trace w1 = evs1 ++ trace w /\ trace w2 = evs2 ++ trace w1 /\
       forallb readsOnly evs2 = true /\
       (length (List.filter isSetItem (evs2 ++ evs1)) <= 1)%nat).
Proof.
  split.
  - intros s Hs Hne. apply getSavedBucket_Some in Hs as [Hok Hs].
    rewrite (assignFairBucket_existing _ _ _ Hok Hs Hne). simpl.
    repeat split. now eexists [_; _; _].
  - intros Hw. destruct (storeWorks_inv _ Hw) as (Hok & _ & _).
    destruct (truthy (storage w !! FAIR_BUCKET_STORAGE_KEY)) eqn:Ht.
    + destruct (storage w !! FAIR_BUCKET_STORAGE_KEY) as [[|c s]|] eqn:Hs;
        try discriminate Ht.
      assert (Hne : c :: s <> []) by discriminate.
      rewrite (assignFairBucket_existing _ _ _ Hok Hs Hne).
      rewrite (assignFairBucket_existing _ _ (c :: s) Hok); [| exact Hs | exact Hne ].
      eexists [_; _; _], [_; _; _]. simpl. repeat split. simpl. lia.
    + rewrite assignFairBucket_unassigned
        by (now rewrite (getSavedBucket_works _ _ Hok)).
      rewrite (getSavedBucket_works _ _ Hok). simpl.
      set (w0 := emitted _ w).
      pose proof (getHashBasedBucket_cases env w0) as Hb.
      destruct (addsOnly_getHashBasedBucket env w0) as (evsP & HtP & HqP).
      destruct (getHashBasedBucket env w0) as [b w1]. simpl in Hb, HtP.
      rewrite (persistAutomatic_works _ _ _ Hw).
      set (w' := emitted _ _).
      assert (Hs : storage w' !! FAIR_BUCKET_STORAGE_KEY = Some b).
      { simpl. rewrite lookup_delete_ne by (apply not_eq_sym, keys_distinct).
        apply lookup_insert_eq. }
      rewrite (assignFairBucket_existing _ _ _ Hok Hs (bucket_nonempty _ Hb)).
      exists ([EvConsole LOG "[Splitter] New assignment:";
               EvRemoveItem FAIR_BUCKET_MANUAL_KEY;
               EvSetItem FAIR_BUCKET_STORAGE_KEY b]
              ++ evsP ++ [EvGetItem FAIR_BUCKET_STORAGE_KEY]).
      eexists [_; _; _]. simpl. repeat split.
      * rewrite HtP, <- app_assoc. reflexivity.
      * rewrite List.filter_app, (filter_isSetItem_noStoreAccess _ HqP). simpl. lia.
Qed.

Lemma assignFairBucket_idempotent_witness :
  (fst (assignFairBucket legacyBrowser foreignWorld) = lit "control" /\
   storage (snd (assignFairBucket legacyBrowser foreignWorld)) = storage foreignWorld) /\
  exists evs1 evs2,
    let (b1, w1) := assignFairBucket legacyBrowser freshWorld in
    let (b2, w2) := assignFairBucket legacyBrowser w1 in
    b2 = b1 /\ storage w2 = storage w1 /\
    trace w1 = evs1 ++ trace freshWorld /\ trace w2 = evs2 ++ trace w1 /\
    forallb readsOnly evs2 = true /\
    (length (List.filter isSetItem (evs2 ++ evs1)) <= 1)%nat.
Proof.
  split.
  - destruct (proj1 (assignFairBucket_idempotent legacyBrowser foreignWorld)
                (lit "control")) as (Hb & Hst & _);
      [ reflexivity | discriminate | exact (conj Hb Hst) ].
  - apply (assignFairBucket_idempotent legacyBrowser freshWorld). reflexivity.
Defined.

(** C10. [assignFairBucket] returns a non-empty string stored under the
    assignment key as it is, whatever it is, without computing or writing
    anything; over a stored empty string it computes the hash-based bucket
    instead and writes it over the empty string. *)
Theorem assignFairBucket_stored_verbatim (env : Env) (w : World) (s : jsstr) :
  storage_getItem_ok env = true ->
  storage w !! FAIR_BUCKET_STORAGE_KEY = Some s ->
  (s <> [] ->
     assignFairBucket env w
     = (s, emitted (EvConsole LOG "[Splitter] Loaded existing bucket:")
             (emitted (EvGetItem FAIR_BUCKET_MANUAL_KEY)
                (emitted (EvGetItem FAIR_BUCKET_STORAGE_KEY) w)))) /\
  (s = [] -> storeWorks env = true ->
     let (b, w') := assignFairBucket env w in
     b = fst (getHashBasedBucket env (emitted (EvGetItem FAIR_BUCKET_STORAGE_KEY) w)) /\
     (b = lit "A" \/ b = lit "B") /\
     storage w' !! FAIR_BUCKET_STORAGE_KEY = Some b /\
     storage w' !! FAIR_BUCKET_MANUAL_KEY = None /\
     exists evs, trace w' = evs ++ trace w /\
                 In (EvSetItem FAIR_BUCKET_STORAGE_KEY b) evs).
Proof.
  intros Hok Hs. split.
  - intros Hne. now apply assignFairBucket_existing.
  - intros -> Hw.
    rewrite assignFairBucket_unassigned
      by (now rewrite (getSavedBucket_works _ _ Hok), Hs).
    rewrite (getSavedBucket_works _ _ Hok). simpl.
    set (w0 := emitted _ w).
    pose proof (getHashBasedBucket_cases env w0) as Hb.
    destruct (addsOnly_getHashBasedBucket env w0) as (evsP & HtP & HqP).
    destruct (getHashBasedBucket env w0) as [b w1]. cbn [fst snd] in Hb, HtP |- *.
    rewrite (persistAutomatic_works _ _ _ Hw). simpl.
    split; [ reflexivity |]. split; [ exact Hb |]. split; [| split ].
    + rewrite lookup_delete_ne by (apply not_eq_sym, keys_distinct).
      apply lookup_insert_eq.
    + apply lookup_delete_eq.
    + exists ([EvConsole LOG "[Splitter] New assignment:";
               EvRemoveItem FAIR_BUCKET_MANUAL_KEY;
               EvSetItem FAIR_BUCKET_STORAGE_KEY b]
              ++ evsP ++ [EvGetItem FAIR_BUCKET_STORAGE_KEY]).
      split; [ rewrite HtP; simpl; rewrite <- app_assoc; reflexivity |].
      simpl. auto.
Qed.

Lemma assignFairBucket_stored_verbatim_witness :
  assignFairBucket legacyBrowser foreignWorld
  = (lit "control",
     emitted (EvConsole LOG "[Splitter] Loaded existing bucket:")
       (emitted (EvGetItem FAIR_BUCKET_MANUAL_KEY)
          (emitted (EvGetItem FAIR_BUCKET_STORAGE_KEY) foreignWorld))) /\
  (let (b, w') := assignFairBucket legacyBrowser blankWorld in
   b = fst (getHashBasedBucket legacyBrowser
              (emitted (EvGetItem FAIR_BUCKET_STORAGE_KEY) blankWorld)) /\
   (b = lit "A" \/ b = lit "B") /\
   storage w' !! FAIR_BUCKET_STORAGE_KEY = Some b /\
   storage w' !! FAIR_BUCKET_MANUAL_KEY = None /\
   exists evs, trace w' = evs ++ trace blankWorld /\
               In (EvSetItem FAIR_BUCKET_STORAGE_KEY b) evs).
Proof.
  split.
  - apply (assignFairBucket_stored_verbatim legacyBrowser foreignWorld (lit "control"));
      [ reflexivity | reflexivity | discriminate ].
  - apply (assignFairBucket_stored_verbatim legacyBrowser blankWorld []);
      reflexivity.
Defined.

(** C5. A manual override takes precedence.  With a functioning store and
    from any prior state, after [setFairBucket("A")] the next
    [assignFairBucket] returns "A" and [isManualOverride] answers true;
    any number of [assignFairBucket] calls return "A", leave the store as
    the override left it, keep the flag, and add neither a store write nor
    a score computation to the trace. *)
Theorem setFairBucket_precedence (env : Env) (w : World) (n : nat) :
  storeWorks env = true ->
  let w1 := snd (setFairBucket env (lit "A") w) in
  fst (assignFairBucket env w1) = lit "A" /\
  fst (isManualOverride env (snd (assignFairBucket env w1))) = true /\
  fst (assignTimes env n w1) = repeat (lit "A") n /\
  storage (snd (assignTimes env n w1)) = storage w1 /\
  fst (isManualOverride env (snd (assignTimes env n w1))) = true /\
  exists evs, trace (snd (assignTimes env n w1)) = evs ++ trace w1 /\
              forallb readsOnly evs = true.
Proof.
  intros Hw w1. destruct (storeWorks_inv _ Hw) as (Hok & _ & _).
  assert (Hs : storage w1 !! FAIR_BUCKET_STORAGE_KEY = Some (lit "A")).
  { subst w1. rewrite setFairBucket_works by auto. simpl.
    rewrite lookup_insert_ne by (apply not_eq_sym, keys_distinct).
    apply lookup_insert_eq. }
  assert (Hm : storage w1 !! FAIR_BUCKET_MANUAL_KEY = Some (lit "true")).
  { subst w1. rewrite setFairBucket_works by auto. simpl.
    apply lookup_insert_eq. }
  clearbody w1.
  destruct (assignTimes_existing env (lit "A") n w1 Hok Hs lit_A_nonempty)
    as (Hr & Hst & Hev).
  rewrite (assignFairBucket_existing _ _ _ Hok Hs lit_A_nonempty).
  rewrite !isManualOverride_works by exact Hok. simpl storage.
  rewrite Hst, Hm.
  repeat split; try assumption; now apply bool_decide_eq_true_2.
Qed.

Lemma setFairBucket_precedence_witness :
  fst (assignFairBucket legacyBrowser
         (snd (setFairBucket legacyBrowser (lit "A") freshWorld))) = lit "A".
Proof.
  apply (setFairBucket_precedence legacyBrowser freshWorld 1). reflexivity.
Defined.

(** C6. [setFairBucket] with a value other than "A" and "B" only writes a
    diagnostic to the console: no storage method is called, the store is
    as before, and so are the saved assignment and the override flag. *)
Theorem setFairBucket_rejects_invalid (env : Env) (bucket : jsstr) (w : World) :
  bucket <> lit "A" -> bucket <> lit "B" ->
  setFairBucket env bucket w
  = (tt, emitted (EvConsole ERROR "[Splitter] Invalid bucket:") w) /\
  storage (snd (setFairBucket env bucket w)) = storage w /\
  fst (getSavedBucket env (snd (setFairBucket env bucket w)))
  = fst (getSavedBucket env w) /\
  fst (isManualOverride env (snd (setFairBucket env bucket w)))
  = fst (isManualOverride env w).
Proof.
  intros HA HB.
  assert (E : setFairBucket env bucket w
              = (tt, emitted (EvConsole ERROR "[Splitter] Invalid bucket:") w)).
  { unfold setFairBucket.
    rewrite (bool_decide_eq_false_2 _ HA), (bool_decide_eq_false_2 _ HB).
    reflexivity. }
  rewrite E. split; [ reflexivity | split; [ reflexivity | split ] ].
  - unfold getSavedBucket, localStorage_getItem. run.
    now destruct (storage_getItem_ok env).
  - unfold isManualOverride, localStorage_getItem. run.
    now destruct (storage_getItem_ok env).
Qed.

Lemma setFairBucket_rejects_invalid_witness :
  storage (snd (setFairBucket legacyBrowser (lit "C") foreignWorld))
  = storage foreignWorld.
Proof.
  apply (setFairBucket_rejects_invalid legacyBrowser (lit "C") foreignWorld);
    discriminate.
Defined.

(* ===================================================================== *)
(** ** The identity key without a GeoIP provider *)
(* ===================================================================== *)

Lemma getMyIpAddress_random (env : Env) (w : World) :
  providerUnavailable env = true ->
  fst (getMyIpAddress env w) = randomIdOf (Math_random env (mathRandomCalls w)) /\
  mathRandomCalls (snd (getMyIpAddress env w)) = S (mathRandomCalls w).
Proof.
  unfold providerUnavailable, getMyIpAddress, Math_random_call. run.
  destruct (getGeoIP env) as [| |s]; simpl; auto.
  destruct (trim s); simpl; [ auto | discriminate ].
Qed.

Lemma buildHashInput_random (env : Env) (w : World) :
  providerUnavailable env = true ->
  fst (buildHashInput env w) = randomKeyAt env (mathRandomCalls w) /\
  mathRandomCalls (snd (buildHashInput env w)) = S (mathRandomCalls w).
Proof.
  intros H. destruct (getMyIpAddress_random env w H) as [Hip Hn].
  unfold buildHashInput, randomKeyAt, bind.
  destruct (getMyIpAddress env w) as [ip w1]. simpl in Hip, Hn. subst ip.
  destruct (userAgent env); simpl; auto.
Qed.

(** C8, as the code has it.  Without a usable GeoIP address every build of
    the identity key calls [Math.random()] anew: the build at the n-th
    call gives lowercase(trim("random-" + token_n + "|" + agent)) and moves
    on to call n+1.  Two builds in a row give the same key when the two
    results of [Math.random()] give the same token. *)
Theorem buildHashInput_fresh_token (env : Env) (w : World) :
  providerUnavailable env = true ->
  let n := mathRandomCalls w in
  let w1 := snd (buildHashInput env w) in
  fst (buildHashInput env w) = randomKeyAt env n /\
  mathRandomCalls w1 = S n /\
  fst (buildHashInput env w1) = randomKeyAt env (S n) /\
  (substring (base36 (Math_random env (S n))) 2 15
   = substring (base36 (Math_random env n)) 2 15 ->
   fst (buildHashInput env w1) = fst (buildHashInput env w)).
Proof.
  intros H n w1.
  destruct (buildHashInput_random env w H) as [Hk Hn].
  destruct (buildHashInput_random env w1 H) as [Hk1 _].
  fold w1 in Hn. rewrite Hn in Hk1. fold n in Hk, Hk1.
  repeat split; try assumption.
  intros Htok. rewrite Hk, Hk1. unfold randomKeyAt, randomIdOf. now rewrite Htok.
Qed.

Lemma buildHashInput_fresh_token_witness :
  fst (buildHashInput offlineBrowser (snd (buildHashInput offlineBrowser laterWorld)))
  = fst (buildHashInput offlineBrowser laterWorld).
Proof.
  apply (buildHashInput_fresh_token offlineBrowser laterWorld); reflexivity.
Defined.

(** C8, as stated, fails: without a GeoIP provider and with [Math.random()]
    giving 0.5 and then 0.75, two builds in a row give the keys
    "random-i|test-agent" and "random-r|test-agent", and the bucket
    returned by [clearFairBucket] ("A") is not the one [getHashBasedBucket]
    gives right after ("B"). *)
Lemma buildHashInput_repeat_differs :
  providerUnavailable offlineBrowser = true /\
  fst (buildHashInput offlineBrowser freshWorld) = lit "random-i|test-agent" /\
  fst (buildHashInput offlineBrowser (snd (buildHashInput offlineBrowser freshWorld)))
  = lit "random-r|test-agent" /\
  fst (buildHashInput offlineBrowser (snd (buildHashInput offlineBrowser freshWorld)))
  <> fst (buildHashInput offlineBrowser freshWorld) /\
  fst (clearFairBucket offlineBrowser freshWorld) = lit "A" /\
  fst (getHashBasedBucket offlineBrowser (snd (clearFairBucket offlineBrowser freshWorld)))
  = lit "B".
Proof.
  split; [ reflexivity |]. split; [ vm_compute; reflexivity |].
  split; [ vm_compute; reflexivity |]. split; [ vm_compute; discriminate |].
  split; vm_compute; reflexivity.
Qed.

(* ===================================================================== *)
(** ** The manual UTF-8 encoder *)
(* ===================================================================== *)

Lemma skipn_nth_cons (l : jsstr) (i : nat) :
  (i < length l)%nat -> skipn i l = nth i l 0 :: skipn (S i) l.
Proof.
  revert i. induction l as [|x l IH]; intros i Hi; simpl in Hi; [ lia |].
  destruct i as [|i]; [ reflexivity |].
  simpl. apply IH. lia.
Qed.

Lemma percentDecode_percent (rest : jsstr) :
  percentDecode (37 :: rest)
  = parseInt16 (firstn 2 rest) :: percentDecode (skipn 2 rest).
Proof. destruct rest as [|a [|b rest]]; reflexivity. Qed.

Lemma percentDecode_plain (ch : Z) (rest : jsstr) :
  (ch =? 37) = false -> percentDecode (ch :: rest) = Num ch :: percentDecode rest.
Proof. intros H. simpl. now rewrite H. Qed.

(** The indexed loop reads the text from [i] on as [percentDecode] does,
    provided the fuel covers what is left. *)
Lemma strToUtf8Bytes_loop_percentDecode (fuel : nat) :
  forall (enc : jsstr) (i : nat) (bytes : list JsNumber),
    (length enc - i <= fuel)%nat ->
    strToUtf8Bytes_loop fuel enc i bytes = bytes ++ percentDecode (skipn i enc).
Proof.
  induction fuel as [|fuel IH]; intros enc i bytes Hfuel; simpl.
  - rewrite skipn_all2 by lia. now rewrite app_nil_r.
  - destruct (Nat.ltb_spec i (length enc)) as [Hi | Hi].
    + rewrite (skipn_nth_cons enc i Hi).
      destruct (nth i enc 0 =? 37) eqn:Hch.
      * apply Z.eqb_eq in Hch. rewrite Hch, percentDecode_percent.
        rewrite IH by lia. rewrite <- app_assoc. simpl.
        unfold substr. rewrite skipn_skipn.
        replace (i + 1)%nat with (S i) by lia.
        replace (i + 2 + 1)%nat with (2 + S i)%nat by lia. reflexivity.
      * rewrite (percentDecode_plain _ _ Hch), IH by lia.
        rewrite <- app_assoc. simpl.
        replace (i + 1)%nat with (S i) by lia. reflexivity.
    + rewrite skipn_all2 by lia. now rewrite app_nil_r.
Qed.

Lemma strToUtf8Bytes_percentDecode (s : jsstr) :
  strToUtf8Bytes s = percentDecode <$> encodeURIComponent s.
Proof.
  unfold strToUtf8Bytes. destruct (encodeURIComponent s) as [enc|]; simpl; [| reflexivity ].
  rewrite strToUtf8Bytes_loop_percentDecode by lia. reflexivity.
Qed.

Lemma all_escapes_read_back :
  forallb escapeReadsBack (map Z.of_nat (seq 0 256)) = true.
Proof. vm_compute. reflexivity. Qed.

Lemma parseInt16_escape (b : Z) :
  isOctet b = true ->
  parseInt16 [hexDigit (b / 16); hexDigit (b mod 16)] = Num b.
Proof.
  unfold isOctet. intros H. apply andb_true_iff in H as [H0 H1].
  apply Z.leb_le in H0. apply Z.ltb_lt in H1.
  pose proof (proj1 (forallb_forall _ _) all_escapes_read_back b) as Hb.
  unfold escapeReadsBack in Hb.
  destruct (parseInt16 _) as [z|].
  - f_equal. apply Z.eqb_eq, Hb.
    apply in_map_iff. exists (Z.to_nat b). split; [ lia |].
    apply in_seq. lia.
  - discriminate Hb.
    apply in_map_iff. exists (Z.to_nat b). split; [ lia |].
    apply in_seq. lia.
Qed.

Lemma percentDecode_escape (octets : list Z) (rest : jsstr) :
  forallb isOctet octets = true ->
  percentDecode (percentEscape octets ++ rest)
  = map Num octets ++ percentDecode rest.
Proof.
  induction octets as [|b octets IH]; simpl; [ reflexivity |].
  intros H. apply andb_true_iff in H as [Hb Hrest].
  rewrite (parseInt16_escape b Hb). f_equal. now apply IH.
Qed.

Lemma utf8_octets_isOctet (cp : Z) :
  0 <= cp < 0x110000 -> forallb isOctet (utf8_octets cp) = true.
Proof.
  intros Hcp. unfold utf8_octets.
  destruct (Z.ltb_spec cp 0x80); [| destruct (Z.ltb_spec cp 0x800);
    [| destruct (Z.ltb_spec cp 0x10000) ] ];
    cbn [forallb]; unfold isOctet;
    repeat (apply andb_true_iff; split); try reflexivity;
    try (apply Z.leb_le); try (apply Z.ltb_lt);
    Z.div_mod_to_equations; lia.
Qed.

Lemma uriUnescaped_ascii (c : Z) :
  uriUnescaped c = true ->
  (c =? 37) = false /\ utf8_octets c = [c] /\
  isHighSurrogate c = false /\ isLowSurrogate c = false.
Proof.
  unfold uriUnescaped, utf8_octets, isHighSurrogate, isLowSurrogate. intros H.
  repeat rewrite ?orb_true_iff, ?andb_true_iff, ?Z.leb_le, ?Z.eqb_eq in H.
  assert (Hc : 33 <= c <= 126 /\ c <> 37) by lia.
  destruct Hc as [Hr H37].
  repeat split.
  - now apply Z.eqb_neq.
  - destruct (Z.ltb_spec c 0x80); [ reflexivity | lia ].
  - apply andb_false_iff. left. apply Z.leb_gt. lia.
  - apply andb_false_iff. left. apply Z.leb_gt. lia.
Qed.

Lemma pairCodePoint_range (c d : Z) :
  isHighSurrogate c = true -> isLowSurrogate d = true ->
  0 <= pairCodePoint c d < 0x110000.
Proof.
  unfold isHighSurrogate, isLowSurrogate, pairCodePoint. intros Hc Hd.
  apply andb_true_iff in Hc as [Hc1 Hc2]. apply andb_true_iff in Hd as [Hd1 Hd2].
  apply Z.leb_le in Hc1, Hc2, Hd1, Hd2. lia.
Qed.

Lemma isCodeUnit_range (c : Z) : isCodeUnit c = true -> 0 <= c < 0x110000.
Proof.
  unfold isCodeUnit. intros H. apply andb_true_iff in H as [H0 H1].
  apply Z.leb_le in H0. apply Z.ltb_lt in H1. lia.
Qed.

(** On a well-formed string [encodeURIComponent] returns, and reading its
    escapes back gives the octets [TextEncoder] produces. *)
Lemma encodeURIComponent_percentDecode (n : nat) :
  forall s : jsstr,
    (length s <= n)%nat -> isString s = true -> isWellFormed s = true ->
    exists enc,
      encodeURIComponent s = Some enc /\
      percentDecode enc = map Num (TextEncoder_encode s) /\
      forallb isOctet (TextEncoder_encode s) = true.
Proof.
  induction n as [|n IH]; intros [|c rest] Hlen Hstr Hwf;
    try (exists []; repeat split; reflexivity);
    [ simpl in Hlen; lia |].
  cbn [isString forallb] in Hstr. apply andb_true_iff in Hstr as [Hc Hstr].
  fold (isString rest) in Hstr.
  cbn [encodeURIComponent TextEncoder_encode isWellFormed] in *.
  destruct (uriUnescaped c) eqn:Hu.
  - destruct (uriUnescaped_ascii c Hu) as (H37 & Hoct & Hh & Hl).
    rewrite Hh, Hl in *. rewrite Hoct. simpl in Hwf.
    destruct (IH rest) as (enc & He & Hd & Ho); [ simpl in Hlen; lia | assumption.. |].
    exists (c :: enc). rewrite He. repeat split.
    + rewrite (percentDecode_plain _ _ H37), Hd. reflexivity.
    + cbn [app forallb]. rewrite Ho, andb_true_r.
      pose proof (utf8_octets_isOctet c (isCodeUnit_range c Hc)) as Hp.
      rewrite Hoct in Hp. cbn [forallb] in Hp. now rewrite andb_true_r in Hp.
  - destruct (isHighSurrogate c) eqn:Hh.
    + destruct rest as [|d rest']; [ discriminate Hwf |].
      apply andb_true_iff in Hwf as [Hd Hwf]. rewrite Hd.
      cbn [isString forallb] in Hstr. apply andb_true_iff in Hstr as [_ Hstr].
      destruct (IH rest') as (enc & He & Hdec & Ho);
        [ simpl in Hlen; lia | assumption.. |].
      pose proof (utf8_octets_isOctet _ (pairCodePoint_range c d Hh Hd)) as Hp.
      eexists. rewrite He. repeat split.
      * rewrite (percentDecode_escape _ _ Hp), Hdec, map_app. reflexivity.
      * rewrite forallb_app, Hp, Ho. reflexivity.
    + apply andb_true_iff in Hwf as [Hl Hwf]. apply negb_true_iff in Hl.
      rewrite Hl.
      destruct (IH rest) as (enc & He & Hdec & Ho);
        [ simpl in Hlen; lia | assumption.. |].
      pose proof (utf8_octets_isOctet _ (isCodeUnit_range c Hc)) as Hp.
      eexists. rewrite He. repeat split.
      * rewrite (percentDecode_escape _ _ Hp), Hdec, map_app. reflexivity.
      * rewrite forallb_app, Hp, Ho. reflexivity.
Qed.

Lemma Uint8Array_from_octets (octets : list Z) :
  forallb isOctet octets = true -> Uint8Array_from (map Num octets) = octets.
Proof.
  unfold Uint8Array_from. induction octets as [|b octets IH]; simpl; [ reflexivity |].
  intros H. apply andb_true_iff in H as [Hb Ho].
  unfold isOctet in Hb. apply andb_true_iff in Hb as [H0 H1].
  apply Z.leb_le in H0. apply Z.ltb_lt in H1.
  rewrite Z.mod_small by lia. now rewrite IH.
Qed.

(** C9. For every well-formed string, [strToUtf8Bytes] returns the octets
    of the standard UTF-8 encoding, the ones [TextEncoder] produces; so
    the digest is given the same bytes in every browser, with or without
    [TextEncoder]. *)
Theorem strToUtf8Bytes_is_utf8 (s : jsstr) :
  isString s = true -> isWellFormed s = true ->
  strToUtf8Bytes s = Some (map Num (TextEncoder_encode s)) /\
  Uint8Array_from <$> strToUtf8Bytes s = Some (TextEncoder_encode s) /\
  forall env, encodeInput env s = Some (TextEncoder_encode s).
Proof.
  intros Hstr Hwf.
  destruct (encodeURIComponent_percentDecode (length s) s (le_n _) Hstr Hwf)
    as (enc & He & Hd & Ho).
  assert (E : strToUtf8Bytes s = Some (map Num (TextEncoder_encode s))).
  { rewrite strToUtf8Bytes_percentDecode, He. simpl. now rewrite Hd. }
  split; [ exact E |].
  assert (E' : Uint8Array_from <$> strToUtf8Bytes s = Some (TextEncoder_encode s)).
  { rewrite E. simpl. now rewrite Uint8Array_from_octets. }
  split; [ exact E' |].
  intros env. unfold encodeInput. now destruct (has_TextEncoder env).
Qed.

Lemma strToUtf8Bytes_is_utf8_witness :
  strToUtf8Bytes (lit "a b%-" ++ [233; 8364; 55357; 56832; 122])
  = Some (map Num [97; 32; 98; 37; 45; 195; 169; 226; 130; 172;
                   240; 159; 152; 128; 122]).
Proof.
  apply (strToUtf8Bytes_is_utf8 (lit "a b%-" ++ [233; 8364; 55357; 56832; 122]));
    reflexivity.
Defined.

(* ===================================================================== *)
(** ** More on the hash chain *)
(* ===================================================================== *)

Lemma hashToUint32_scoreOf (env : Env) (text : jsstr) (w : World) :
  fst (hashToUint32 env text w) = scoreOf env text.
Proof.
  unfold hashToUint32, scoreOf, sha256Stage. run.
  destruct (encodeInput env text) as [bytes|]; simpl; [| reflexivity ].
  destruct (subtle_digest env bytes) as [buffer|]; simpl; [| reflexivity ].
  destruct (DataView_getUint32 env buffer); reflexivity.
Qed.

(** OR acts bit by bit as well. *)
Lemma lor_mod_pow2 (a b n : Z) :
  0 <= n -> Z.lor a b mod 2 ^ n = Z.lor (a mod 2 ^ n) (b mod 2 ^ n).
Proof.
  intros Hn. apply Z.bits_inj'. intros i Hi.
  rewrite Z.lor_spec, !Z.testbit_mod_pow2 by lia.
  destruct (i <? n); [ apply Z.lor_spec | reflexivity ].
Qed.

Lemma js_or_mod (a b : Z) :
  js_or a b mod two32 = Z.lor (a mod two32) (b mod two32).
Proof.
  unfold js_or. rewrite ToInt32_mod, two32_pow.
  rewrite lor_mod_pow2 by lia. rewrite <- two32_pow.
  now rewrite !ToInt32_mod.
Qed.

Lemma js_shl_mod (a k : Z) :
  0 <= k < 32 -> js_shl a k mod two32 = (a * 2 ^ k) mod two32.
Proof.
  intros Hk. destruct (js_shl_shift a k Hk) as [q ->].
  now apply mod_two32_shift with q.
Qed.

(** OR-ing into the zero bits below a shifted value adds. *)
Lemma lor_below (hi lo k : Z) :
  0 <= k -> 0 <= lo < 2 ^ k -> Z.lor (hi * 2 ^ k) lo = hi * 2 ^ k + lo.
Proof.
  intros Hk Hlo.
  assert (Hland : Z.land (hi * 2 ^ k) lo = 0).
  { apply Z.bits_inj'. intros i Hi. rewrite Z.land_spec, Z.bits_0.
    destruct (Z.lt_ge_cases i k) as [Hik | Hik].
    - rewrite Z.mul_pow2_bits_low by lia. reflexivity.
    - rewrite <- (Z.mod_small lo (2 ^ k)) by lia.
      rewrite Z.mod_pow2_bits_high by lia. apply andb_false_r. }
  rewrite (Z.add_nocarry_lxor _ _ Hland). symmetry. now apply Z.lxor_lor.
Qed.

Lemma isOctet_range (b : Z) : isOctet b = true -> 0 <= b < 256.
Proof.
  unfold isOctet. intros H. apply andb_true_iff in H as [H0 H1].
  apply Z.leb_le in H0. apply Z.ltb_lt in H1. lia.
Qed.

(** The [Uint8Array] expression reads the first four octets big-endian. *)
Lemma firstWord_u8_big_endian (b0 b1 b2 b3 : Z) (rest : list Z) :
  isOctet b0 = true -> isOctet b1 = true -> isOctet b2 = true ->
  isOctet b3 = true ->
  firstWord_u8 (b0 :: b1 :: b2 :: b3 :: rest)
  = b0 * 16777216 + b1 * 65536 + b2 * 256 + b3.
Proof.
  intros H0 H1 H2 H3.
  apply isOctet_range in H0, H1, H2, H3.
  unfold firstWord_u8, js_ushr0, ToUint32. cbn [nth].
  rewrite !js_or_mod, !js_shl_mod by lia.
  change (2 ^ 24) with 16777216. change (2 ^ 16) with 65536.
  change (2 ^ 8) with 256.
  rewrite !Z.mod_small by (unfold two32; lia).
  change 16777216 with (2 ^ 24) at 1.
  rewrite (lor_below b0 (b1 * 65536) 24) by lia.
  replace (b0 * 2 ^ 24 + b1 * 65536) with ((b0 * 256 + b1) * 2 ^ 16) by lia.
  rewrite (lor_below _ (b2 * 256) 16) by lia.
  replace ((b0 * 256 + b1) * 2 ^ 16 + b2 * 256)
    with ((b0 * 65536 + b1 * 256 + b2) * 2 ^ 8) by lia.
  rewrite (lor_below _ b3 8) by lia. lia.
Qed.

(** X1. When the digest answers with at least four octets, the score is
    their big-endian value, with [DataView] or without it, and no later
    stage is tried: the call adds the digest event and nothing else. *)
Theorem hashToUint32_digest_word (env : Env) (text : jsstr) (w : World)
    (bytes : list Z) (b0 b1 b2 b3 : Z) (rest : list Z) :
  encodeInput env text = Some bytes ->
  subtle_digest env bytes = Some (b0 :: b1 :: b2 :: b3 :: rest) ->
  forallb isOctet [b0; b1; b2; b3] = true ->
  hashToUint32 env text w
  = (b0 * 16777216 + b1 * 65536 + b2 * 256 + b3, emitted (EvDigest bytes) w).
Proof.
  intros He Hd Ho. cbn [forallb] in Ho.
  apply andb_true_iff in Ho as [H0 Ho]. apply andb_true_iff in Ho as [H1 Ho].
  apply andb_true_iff in Ho as [H2 Ho]. apply andb_true_iff in Ho as [H3 _].
  unfold hashToUint32, sha256Stage. run. rewrite He. simpl. rewrite Hd. simpl.
  unfold DataView_getUint32.
  pose proof (isOctet_range _ H0). pose proof (isOctet_range _ H1).
  pose proof (isOctet_range _ H2). pose proof (isOctet_range _ H3).
  destruct (has_DataView env); simpl.
  - unfold js_ushr0, ToUint32. rewrite Z.mod_small by (unfold two32; lia).
    reflexivity.
  - now rewrite firstWord_u8_big_endian.
Qed.

Lemma hashToUint32_digest_word_witness :
  hashToUint32 agedBrowser (lit "ab") freshWorld
  = (195 * 16777216 + 1 * 65536 + 2 * 256 + 3, emitted (EvDigest [97; 98]) freshWorld).
Proof.
  apply (hashToUint32_digest_word agedBrowser (lit "ab") freshWorld
           [97; 98] 195 1 2 3 (repeat 0 28)); reflexivity.
Defined.

(** [encodeURIComponent] throws exactly on an unpaired surrogate. *)
Lemma encodeURIComponent_None (n : nat) :
  forall s : jsstr,
    (length s <= n)%nat ->
    (encodeURIComponent s = None <-> isWellFormed s = false).
Proof.
  induction n as [|n IH]; intros [|c rest] Hlen;
    try (split; discriminate); [ simpl in Hlen; lia |].
  cbn [encodeURIComponent isWellFormed].
  destruct (uriUnescaped c) eqn:Hu.
  - destruct (uriUnescaped_ascii c Hu) as (_ & _ & Hh & Hl).
    rewrite Hh, Hl. simpl negb. rewrite andb_true_l, fmap_None.
    apply IH. simpl in Hlen; lia.
  - destruct (isHighSurrogate c).
    + destruct rest as [|d rest']; [ tauto |].
      destruct (isLowSurrogate d); [| tauto ].
      rewrite andb_true_l, fmap_None. apply IH. simpl in Hlen; lia.
    + destruct (isLowSurrogate c); [ tauto |].
      simpl negb. rewrite andb_true_l, fmap_None. apply IH. simpl in Hlen; lia.
Qed.

(** X2. [strToUtf8Bytes] throws exactly on the strings with an unpaired
    surrogate.  For such a string a browser without [TextEncoder] never
    reaches the digest: the score is the FNV-1a hash, whatever
    [crypto.subtle] would answer. *)
Theorem strToUtf8Bytes_unpaired_surrogate (s : jsstr) :
  (strToUtf8Bytes s = None <-> isWellFormed s = false) /\
  (forall env w,
     has_TextEncoder env = false -> isWellFormed s = false ->
     hashToUint32 env s w
     = (fnv1a32 s,
        emitted (EvConsole WARN "[Splitter] SHA-256 failed, using FNV-1a fallback") w)).
Proof.
  assert (E : strToUtf8Bytes s = None <-> isWellFormed s = false).
  { rewrite strToUtf8Bytes_percentDecode, fmap_None.
    apply (encodeURIComponent_None (length s)). lia. }
  split; [ exact E |].
  intros env w Hte Hwf. apply E in Hwf.
  unfold hashToUint32, sha256Stage, encodeInput. run.
  rewrite Hte, Hwf. reflexivity.
Qed.

Lemma strToUtf8Bytes_unpaired_surrogate_witness :
  fst (hashToUint32 agedBrowser [55357] freshWorld) = fnv1a32 [55357].
Proof.
  pose proof (proj2 (strToUtf8Bytes_unpaired_surrogate [55357])
                agedBrowser freshWorld eq_refl eq_refl) as H.
  now rewrite H.
Defined.

(* ===================================================================== *)
(** ** The identity key with a GeoIP address *)
(* ===================================================================== *)

Lemma getMyIpAddress_address (env : Env) (ip : jsstr) (w : World) :
  getGeoIP env = GeoIP_ip ip -> trim ip <> [] ->
  getMyIpAddress env w = (trim ip, emitted EvGeoIP w).
Proof.
  intros Hg Hne. unfold getMyIpAddress. run. rewrite Hg. simpl.
  destruct (trim ip); [ congruence | reflexivity ].
Qed.

Lemma getMyIpAddress_nonempty (env : Env) (w : World) :
  fst (getMyIpAddress env w) <> [].
Proof.
  unfold getMyIpAddress, Math_random_call, randomIdOf. run.
  destruct (getGeoIP env) as [| |s]; simpl; try discriminate.
  destruct (trim s); simpl; discriminate.
Qed.

Lemma buildHashInput_address (env : Env) (ip : jsstr) (w : World) :
  getGeoIP env = GeoIP_ip ip -> trim ip <> [] ->
  fst (buildHashInput env w) = stableKey env ip /\
  mathRandomCalls (snd (buildHashInput env w)) = mathRandomCalls w.
Proof.
  intros Hg Hne. unfold buildHashInput, stableKey, bind.
  rewrite (getMyIpAddress_address _ _ _ Hg Hne).
  destruct (userAgent env); simpl; auto.
Qed.

Lemma getHashBasedBucket_scoreOf (env : Env) (w : World) :
  fst (getHashBasedBucket env w)
  = bucketOfScore (scoreOf env (fst (buildHashInput env w))).
Proof.
  unfold getHashBasedBucket, bind, ret.
  destruct (buildHashInput env w) as [key w1]. simpl.
  rewrite <- (hashToUint32_scoreOf env key w1).
  now destruct (hashToUint32 env key w1).
Qed.

Lemma getHashBasedBucket_address (env : Env) (ip : jsstr) (w : World) :
  getGeoIP env = GeoIP_ip ip -> trim ip <> [] ->
  fst (getHashBasedBucket env w) = bucketOfScore (scoreOf env (stableKey env ip)).
Proof.
  intros Hg Hne. rewrite getHashBasedBucket_scoreOf.
  now rewrite (proj1 (buildHashInput_address env ip w Hg Hne)).
Qed.

(** X3. [getMyIpAddress] never returns the empty string.  When the GeoIP
    provider gives an address that is not blank, the result is that
    address trimmed and [Math.random()] is not called. *)
Theorem getMyIpAddress_never_empty (env : Env) (w : World) :
  fst (getMyIpAddress env w) <> [] /\
  (forall ip, getGeoIP env = GeoIP_ip ip -> trim ip <> [] ->
     getMyIpAddress env w = (trim ip, emitted EvGeoIP w)).
Proof.
  split; [ apply getMyIpAddress_nonempty |].
  intros ip. apply getMyIpAddress_address.
Qed.

Lemma getMyIpAddress_never_empty_witness :
  getMyIpAddress modernBrowser freshWorld = (lit "10.0.0.7", emitted EvGeoIP freshWorld).
Proof.
  apply (proj2 (getMyIpAddress_never_empty modernBrowser freshWorld)
           (lit " 10.0.0.7 "));
    [ reflexivity | vm_compute; discriminate ].
Defined.

(** X4. With a GeoIP address that is not blank, [getHashBasedBucket] is a
    function of the browser alone: in every state it is the bucket of the
    score of lowercase(trim(address + "|" + agent)), so any two calls
    agree, and it calls [Math.random()] never. *)
Theorem getHashBasedBucket_stable (env : Env) (ip : jsstr) (w : World) :
  getGeoIP env = GeoIP_ip ip -> trim ip <> [] ->
  fst (getHashBasedBucket env w) = bucketOfScore (scoreOf env (stableKey env ip)) /\
  (forall w', fst (getHashBasedBucket env w') = fst (getHashBasedBucket env w)) /\
  fst (buildHashInput env w) = stableKey env ip /\
  mathRandomCalls (snd (buildHashInput env w)) = mathRandomCalls w.
Proof.
  intros Hg Hne. split; [| split ].
  - now apply getHashBasedBucket_address.
  - intros w'.
    now rewrite !(getHashBasedBucket_address env ip) by assumption.
  - now apply buildHashInput_address.
Qed.

Lemma getHashBasedBucket_stable_witness :
  fst (getHashBasedBucket modernBrowser laterWorld)
  = fst (getHashBasedBucket modernBrowser freshWorld).
Proof.
  apply (getHashBasedBucket_stable modernBrowser (lit " 10.0.0.7 ") freshWorld);
    [ reflexivity | vm_compute; discriminate ].
Defined.

(* ===================================================================== *)
(** ** The store under every operation *)
(* ===================================================================== *)

Lemma sameElsewhere_refl (m : gmap jsstr jsstr) : sameElsewhere m m.
Proof. now intros k _ _. Qed.

Lemma sameElsewhere_trans (m1 m2 m3 : gmap jsstr jsstr) :
  sameElsewhere m1 m2 -> sameElsewhere m2 m3 -> sameElsewhere m1 m3.
Proof. intros H12 H23 k Hk Hm. now rewrite H23, H12. Qed.

Lemma keepsOtherKeys_ret {A : Type} (a : A) : keepsOtherKeys (ret a).
Proof. intros w. apply sameElsewhere_refl. Qed.

Lemma keepsOtherKeys_bind {A B : Type} (m : M A) (k : A -> M B) :
  keepsOtherKeys m -> (forall a, keepsOtherKeys (k a)) -> keepsOtherKeys (bind m k).
Proof.
  intros Hm Hk w. unfold bind. specialize (Hm w).
  destruct (m w) as [a w1]. simpl in Hm.
  eapply sameElsewhere_trans; [ exact Hm | apply Hk ].
Qed.

Lemma keepsOtherKeys_storeBlind {A : Type} (m : M A) :
  storeBlind m -> keepsOtherKeys m.
Proof.
  intros Hm w. rewrite (storeBlind_storage m w Hm). apply sameElsewhere_refl.
Qed.

Lemma keepsOtherKeys_emit (e : Event) : keepsOtherKeys (emit e).
Proof. intros w. apply sameElsewhere_refl. Qed.

Section OtherKeys.

Context (env : Env).

Lemma keepsOtherKeys_getItem (key : jsstr) :
  keepsOtherKeys (localStorage_getItem env key).
Proof. intros w. apply sameElsewhere_refl. Qed.

Lemma keepsOtherKeys_setItem (key value : jsstr) :
  key = FAIR_BUCKET_STORAGE_KEY \/ key = FAIR_BUCKET_MANUAL_KEY ->
  keepsOtherKeys (localStorage_setItem env key value).
Proof.
  intros Hkey w. unfold localStorage_setItem.
  destruct (storage_setItem_ok env); simpl; [| apply sameElsewhere_refl ].
  intros k Hk Hm. apply lookup_insert_ne. destruct Hkey; congruence.
Qed.

Lemma keepsOtherKeys_removeItem (key : jsstr) :
  key = FAIR_BUCKET_STORAGE_KEY \/ key = FAIR_BUCKET_MANUAL_KEY ->
  keepsOtherKeys (localStorage_removeItem env key).
Proof.
  intros Hkey w. unfold localStorage_removeItem.
  destruct (storage_removeItem_ok env); simpl; [| apply sameElsewhere_refl ].
  intros k Hk Hm. apply lookup_delete_ne. destruct Hkey; congruence.
Qed.

Lemma keepsOtherKeys_getSavedBucket : keepsOtherKeys (getSavedBucket env).
Proof.
  unfold getSavedBucket.
  apply keepsOtherKeys_bind; [ apply keepsOtherKeys_getItem | intros [v|] ].
  - apply keepsOtherKeys_ret.
  - apply keepsOtherKeys_bind; [ apply keepsOtherKeys_emit | intros _ ].
    apply keepsOtherKeys_ret.
Qed.

Lemma keepsOtherKeys_saveBucket (b : jsstr) : keepsOtherKeys (saveBucket env b).
Proof.
  unfold saveBucket.
  apply keepsOtherKeys_bind; [ apply keepsOtherKeys_setItem; auto | intros [u|] ].
  - apply keepsOtherKeys_ret.
  - apply keepsOtherKeys_emit.
Qed.

Lemma keepsOtherKeys_isManualOverride : keepsOtherKeys (isManualOverride env).
Proof.
  unfold isManualOverride.
  apply keepsOtherKeys_bind; [ apply keepsOtherKeys_getItem | intros [v|] ];
    apply keepsOtherKeys_ret.
Qed.

Lemma keepsOtherKeys_setManualOverride (isManual : bool) :
  keepsOtherKeys (setManualOverride env isManual).
Proof.
  unfold setManualOverride.
  apply keepsOtherKeys_bind.
  - destruct isManual;
      [ apply keepsOtherKeys_setItem | apply keepsOtherKeys_removeItem ]; auto.
  - intros [u|]; [ apply keepsOtherKeys_ret | apply keepsOtherKeys_emit ].
Qed.

Lemma keepsOtherKeys_assignFairBucket : keepsOtherKeys (assignFairBucket env).
Proof.
  unfold assignFairBucket.
  apply keepsOtherKeys_bind; [ apply keepsOtherKeys_getSavedBucket | intros existing ].
  destruct (truthy existing).
  - apply keepsOtherKeys_bind; [ apply keepsOtherKeys_isManualOverride | intros _ ].
    apply keepsOtherKeys_bind; [ apply keepsOtherKeys_emit | intros _ ].
    apply keepsOtherKeys_ret.
  - apply keepsOtherKeys_bind;
      [ apply keepsOtherKeys_storeBlind, storeBlind_buildHashInput | intros key ].
    apply keepsOtherKeys_bind;
      [ apply keepsOtherKeys_storeBlind, storeBlind_hashToUint32 | intros score ].
    apply keepsOtherKeys_bind; [ apply keepsOtherKeys_saveBucket | intros _ ].
    apply keepsOtherKeys_bind; [ apply keepsOtherKeys_setManualOverride | intros _ ].
    apply keepsOtherKeys_bind; [ apply keepsOtherKeys_emit | intros _ ].
    apply keepsOtherKeys_ret.
Qed.

Lemma keepsOtherKeys_setFairBucket (b : jsstr) : keepsOtherKeys (setFairBucket env b).
Proof.
  unfold setFairBucket. destruct (_ && _).
  - apply keepsOtherKeys_emit.
  - apply keepsOtherKeys_bind; [ apply keepsOtherKeys_saveBucket | intros _ ].
    apply keepsOtherKeys_bind; [ apply keepsOtherKeys_setManualOverride | intros _ ].
    apply keepsOtherKeys_emit.
Qed.

Lemma keepsOtherKeys_clearFairBucket : keepsOtherKeys (clearFairBucket env).
Proof.
  unfold clearFairBucket.
  apply keepsOtherKeys_bind; [| intros _; apply keepsOtherKeys_assignFairBucket ].
  apply keepsOtherKeys_bind; [ apply keepsOtherKeys_removeItem; auto | intros [u|] ].
  - apply keepsOtherKeys_bind; [ apply keepsOtherKeys_removeItem; auto | intros [u'|] ];
      apply keepsOtherKeys_emit.
  - apply keepsOtherKeys_emit.
Qed.

End OtherKeys.

(** X5. In every browser, [assignFairBucket], [setFairBucket] and
    [clearFairBucket] leave every key of [localStorage] other than
    "fair_bucket" and "fair_bucket_manual" with the value it had. *)
Theorem splitter_keeps_other_keys (env : Env) (w : World) (k : jsstr) :
  k <> FAIR_BUCKET_STORAGE_KEY -> k <> FAIR_BUCKET_MANUAL_KEY ->
  storage (snd (assignFairBucket env w)) !! k = storage w !! k /\
  (forall b, storage (snd (setFairBucket env b w)) !! k = storage w !! k) /\
  storage (snd (clearFairBucket env w)) !! k = storage w !! k.
Proof.
  intros Hk Hm. split; [| split ].
  - now apply keepsOtherKeys_assignFairBucket.
  - intros b. now apply keepsOtherKeys_setFairBucket.
  - now apply keepsOtherKeys_clearFairBucket.
Qed.

Lemma splitter_keeps_other_keys_witness :
  storage (snd (clearFairBucket modernBrowser manualWorld)) !! lit "theme"
  = storage manualWorld !! lit "theme".
Proof.
  apply (splitter_keeps_other_keys modernBrowser manualWorld (lit "theme"));
    discriminate.
Defined.

(* --------------------------------------------------------------------- *)
(** *** What [assignFairBucket] returns and stores, in any browser *)
(* --------------------------------------------------------------------- *)

Lemma getSavedBucket_storage (env : Env) (w : World) :
  storage (snd (getSavedBucket env w)) = storage w.
Proof.
  unfold getSavedBucket, localStorage_getItem. run.
  now destruct (storage_getItem_ok env).
Qed.

Lemma persistAutomatic_storage (env : Env) (b : jsstr) (w : World) :
  storage (snd (persistAutomatic env b w))
  = (let m1 := if storage_setItem_ok env
               then <[FAIR_BUCKET_STORAGE_KEY := b]> (storage w) else storage w in
     if storage_removeItem_ok env then delete FAIR_BUCKET_MANUAL_KEY m1 else m1).
Proof.
  unfold persistAutomatic, saveBucket, setManualOverride,
    localStorage_setItem, localStorage_removeItem. run.
  destruct (storage_setItem_ok env), (storage_removeItem_ok env); reflexivity.
Qed.

Lemma assignFairBucket_result (env : Env) (w : World) :
  fst (assignFairBucket env w)
  = if truthy (fst (getSavedBucket env w))
    then default [] (fst (getSavedBucket env w))
    else fst (getHashBasedBucket env (snd (getSavedBucket env w))).
Proof.
  destruct (truthy (fst (getSavedBucket env w))) eqn:Ht.
  - unfold assignFairBucket, bind.
    destruct (getSavedBucket env w) as [existing w0]. simpl in Ht |- *. rewrite Ht.
    destruct (isManualOverride env w0) as [m w1]. reflexivity.
  - rewrite (assignFairBucket_unassigned _ _ Ht).
    now destruct (getHashBasedBucket env _).
Qed.

Lemma assignFairBucket_storage (env : Env) (w : World) :
  storage (snd (assignFairBucket env w))
  = if truthy (fst (getSavedBucket env w)) then storage w
    else
      let b := fst (getHashBasedBucket env (snd (getSavedBucket env w))) in
      let m1 := if storage_setItem_ok env
                then <[FAIR_BUCKET_STORAGE_KEY := b]> (storage w) else storage w in
      if storage_removeItem_ok env then delete FAIR_BUCKET_MANUAL_KEY m1 else m1.
Proof.
  destruct (truthy (fst (getSavedBucket env w))) eqn:Ht.
  - unfold assignFairBucket, bind.
    pose proof (getSavedBucket_storage env w) as Hst.
    destruct (getSavedBucket env w) as [existing w0]. simpl in Ht, Hst |- *.
    rewrite Ht. unfold isManualOverride, localStorage_getItem. run.
    now destruct (storage_getItem_ok env).
  - rewrite (assignFairBucket_unassigned _ _ Ht).
    pose proof (storeBlind_storage _ (snd (getSavedBucket env w))
                  (storeBlind_getHashBasedBucket env)) as Hst.
    destruct (getHashBasedBucket env _) as [b w1]. simpl in Hst |- *.
    now rewrite persistAutomatic_storage, Hst, getSavedBucket_storage.
Qed.

Lemma truthy_Some (v : option jsstr) :
  truthy v = true -> exists s, v = Some s /\ s <> [].
Proof. destruct v as [[|c s]|]; try discriminate. intros _. now exists (c :: s). Qed.

(** With a functioning store the value returned is the value stored. *)
Lemma assignFairBucket_saved (env : Env) (w : World) :
  storeWorks env = true ->
  storage (snd (assignFairBucket env w)) !! FAIR_BUCKET_STORAGE_KEY
  = Some (fst (assignFairBucket env w)) /\
  fst (assignFairBucket env w) <> [].
Proof.
  intros Hw. destruct (storeWorks_inv _ Hw) as (Hg & Hs & Hr).
  rewrite assignFairBucket_result, assignFairBucket_storage, Hs, Hr.
  rewrite (getSavedBucket_works _ _ Hg). cbn [fst snd].
  destruct (truthy (storage w !! FAIR_BUCKET_STORAGE_KEY)) eqn:Ht.
  - apply truthy_Some in Ht as (s & Hst & Hne). now rewrite Hst.
  - cbn zeta. split.
    + rewrite lookup_delete_ne by (apply not_eq_sym, keys_distinct).
      apply lookup_insert_eq.
    + apply bucket_nonempty, getHashBasedBucket_cases.
Qed.

Lemma setFairBucket_invalid (env : Env) (b : jsstr) (w : World) :
  b <> lit "A" -> b <> lit "B" ->
  setFairBucket env b w = (tt, emitted (EvConsole ERROR "[Splitter] Invalid bucket:") w).
Proof.
  intros HA HB. unfold setFairBucket.
  now rewrite (bool_decide_eq_false_2 _ HA), (bool_decide_eq_false_2 _ HB).
Qed.

Lemma setFairBucket_storage (env : Env) (b : jsstr) (w : World) :
  b = lit "A" \/ b = lit "B" ->
  storage (snd (setFairBucket env b w))
  = if storage_setItem_ok env
    then <[FAIR_BUCKET_MANUAL_KEY := lit "true"]>
           (<[FAIR_BUCKET_STORAGE_KEY := b]> (storage w))
    else storage w.
Proof.
  intros Hb. unfold setFairBucket, saveBucket, setManualOverride,
    localStorage_setItem. run.
  destruct Hb as [-> | ->]; simpl; destruct (storage_setItem_ok env); reflexivity.
Qed.

(** The [try] block of [clearFairBucket]. *)
Lemma clearFairBucket_unfold (env : Env) (w : World) :
  clearFairBucket env w
  = assignFairBucket env
      (if storage_removeItem_ok env
       then emitted (EvConsole LOG "[Splitter] Cleared bucket assignment")
              (emitted (EvRemoveItem FAIR_BUCKET_MANUAL_KEY)
                 (with_storage
                    (delete FAIR_BUCKET_MANUAL_KEY
                       (delete FAIR_BUCKET_STORAGE_KEY (storage w)))
                    (emitted (EvRemoveItem FAIR_BUCKET_STORAGE_KEY) w)))
       else emitted (EvConsole WARN "[Splitter] Failed to clear bucket:")
              (emitted (EvRemoveItem FAIR_BUCKET_STORAGE_KEY) w)).
Proof.
  unfold clearFairBucket, localStorage_removeItem. run.
  destruct (storage_removeItem_ok env); reflexivity.
Qed.

(** X6. With a functioning store and from any prior state,
    [clearFairBucket] returns "A" or "B", that bucket is what
    [getSavedBucket] then returns, the manual flag is gone and the next
    [assignFairBucket] returns the same bucket.  With a GeoIP address that
    is not blank it is also the bucket every [getHashBasedBucket] gives. *)
Theorem clearFairBucket_reassigns (env : Env) (w : World) :
  storeWorks env = true ->
  let b := fst (clearFairBucket env w) in
  let w' := snd (clearFairBucket env w) in
  (b = lit "A" \/ b = lit "B") /\
  fst (getSavedBucket env w') = Some b /\
  fst (isManualOverride env w') = false /\
  fst (assignFairBucket env w') = b /\
  (forall ip, getGeoIP env = GeoIP_ip ip -> trim ip <> [] ->
     forall w'', fst (getHashBasedBucket env w'') = b).
Proof.
  intros Hw b w'. destruct (storeWorks_inv _ Hw) as (Hg & Hs & Hr).
  subst b w'. rewrite clearFairBucket_unfold, Hr.
  set (wc := emitted _ _).
  assert (Hnone : truthy (fst (getSavedBucket env wc)) = false).
  { rewrite (getSavedBucket_works _ _ Hg). simpl.
    rewrite lookup_delete_ne by (apply not_eq_sym, keys_distinct).
    now rewrite lookup_delete_eq. }
  destruct (assignFairBucket_saved env wc Hw) as [Hsaved Hne].
  pose proof (assignFairBucket_result env wc) as Hres. rewrite Hnone in Hres.
  pose proof (assignFairBucket_storage env wc) as Hsto.
  rewrite Hnone, Hs, Hr in Hsto. cbn zeta in Hsto.
  split; [ rewrite Hres; apply getHashBasedBucket_cases |].
  split; [ now rewrite (getSavedBucket_works _ _ Hg) |].
  split; [ rewrite (isManualOverride_works _ _ Hg), Hsto, lookup_delete_eq;
           reflexivity |].
  split; [ now rewrite (assignFairBucket_existing _ _ _ Hg Hsaved Hne) |].
  intros ip Hip Hne' w''. rewrite Hres.
  now rewrite !(getHashBasedBucket_address env ip) by assumption.
Qed.

Lemma clearFairBucket_reassigns_witness :
  fst (getSavedBucket modernBrowser (snd (clearFairBucket modernBrowser manualWorld)))
  = Some (fst (clearFairBucket modernBrowser manualWorld)) /\
  fst (getHashBasedBucket modernBrowser laterWorld)
  = fst (clearFairBucket modernBrowser manualWorld).
Proof.
  destruct (clearFairBucket_reassigns modernBrowser manualWorld eq_refl)
    as (_ & Hsaved & _ & _ & Hpeek).
  split; [ exact Hsaved |].
  apply (Hpeek (lit " 10.0.0.7 ")); [ reflexivity | vm_compute; discriminate ].
Defined.

(** X7. With a functioning store and from any prior state, what
    [assignFairBucket] returns is not empty, is what [getSavedBucket]
    returns afterwards, and is what each of any number of further
    [assignFairBucket] calls returns. *)
Theorem assignFairBucket_persists (env : Env) (w : World) (n : nat) :
  storeWorks env = true ->
  let b := fst (assignFairBucket env w) in
  let w' := snd (assignFairBucket env w) in
  b <> [] /\
  fst (getSavedBucket env w') = Some b /\
  fst (assignTimes env n w') = repeat b n.
Proof.
  intros Hw b w'. destruct (storeWorks_inv _ Hw) as (Hg & _ & _).
  destruct (assignFairBucket_saved env w Hw) as [Hsaved Hne].
  split; [ exact Hne |]. split.
  - subst w'. now rewrite (getSavedBucket_works _ _ Hg).
  - now destruct (assignTimes_existing env b n w' Hg Hsaved Hne).
Qed.

Lemma assignFairBucket_persists_witness :
  fst (assignTimes modernBrowser 3 (snd (assignFairBucket modernBrowser staleFlagWorld)))
  = repeat (fst (assignFairBucket modernBrowser staleFlagWorld)) 3.
Proof.
  apply (assignFairBucket_persists modernBrowser staleFlagWorld 3). reflexivity.
Defined.

(** X8. With a functioning store and from any prior state,
    [setFairBucket] with "A" or "B" makes [getSavedBucket] return that
    bucket and [isManualOverride] answer true, whatever was stored or
    overridden before, and the next [assignFairBucket] returns it. *)
Theorem setFairBucket_sets (env : Env) (b : jsstr) (w : World) :
  storeWorks env = true -> b = lit "A" \/ b = lit "B" ->
  let w' := snd (setFairBucket env b w) in
  fst (getSavedBucket env w') = Some b /\
  fst (isManualOverride env w') = true /\
  fst (assignFairBucket env w') = b.
Proof.
  intros Hw Hb w'. destruct (storeWorks_inv _ Hw) as (Hg & Hs & _).
  pose proof (setFairBucket_storage env b w Hb) as Hsto. rewrite Hs in Hsto.
  fold w' in Hsto.
  assert (Hk : storage w' !! FAIR_BUCKET_STORAGE_KEY = Some b).
  { rewrite Hsto, lookup_insert_ne by (apply not_eq_sym, keys_distinct).
    apply lookup_insert_eq. }
  split; [ now rewrite (getSavedBucket_works _ _ Hg) |]. split.
  - rewrite (isManualOverride_works _ _ Hg), Hsto, lookup_insert_eq.
    now apply bool_decide_eq_true_2.
  - now rewrite (assignFairBucket_existing _ _ _ Hg Hk (bucket_nonempty _ Hb)).
Qed.

Lemma setFairBucket_sets_witness :
  fst (getSavedBucket legacyBrowser
         (snd (setFairBucket legacyBrowser (lit "A") manualWorld))) = Some (lit "A").
Proof.
  apply (setFairBucket_sets legacyBrowser (lit "A") manualWorld);
    [ reflexivity | now left ].
Defined.

(** X9. With a functioning store, after [assignFairBucket] and after
    [clearFairBucket] the manual flag is never set over a missing
    assignment, whatever the state before; [setFairBucket] keeps that
    property for every argument, valid or not. *)
Theorem flagConsistent_kept (env : Env) (w : World) :
  storeWorks env = true ->
  flagConsistent (snd (assignFairBucket env w)) /\
  flagConsistent (snd (clearFairBucket env w)) /\
  (forall b, flagConsistent w -> flagConsistent (snd (setFairBucket env b w))).
Proof.
  intros Hw. destruct (storeWorks_inv _ Hw) as (Hg & Hs & Hr).
  assert (Hassign : forall w0, flagConsistent (snd (assignFairBucket env w0))).
  { intros w0 _. destruct (assignFairBucket_saved env w0 Hw) as [-> Hne].
    now destruct (fst (assignFairBucket env w0)). }
  split; [ apply Hassign |]. split.
  - rewrite clearFairBucket_unfold. apply Hassign.
  - intros b Hinv.
    destruct (decide (b = lit "A")) as [HA | HA];
      [| destruct (decide (b = lit "B")) as [HB | HB] ].
    + intros _. rewrite setFairBucket_storage, Hs by auto.
      rewrite lookup_insert_ne by (apply not_eq_sym, keys_distinct).
      rewrite lookup_insert_eq. now subst b.
    + intros _. rewrite setFairBucket_storage, Hs by auto.
      rewrite lookup_insert_ne by (apply not_eq_sym, keys_distinct).
      rewrite lookup_insert_eq. now subst b.
    + now rewrite (setFairBucket_invalid env b w HA HB).
Qed.

Lemma flagConsistent_kept_witness :
  flagConsistent (snd (assignFairBucket legacyBrowser staleFlagWorld)) /\
  flagConsistent (snd (setFairBucket legacyBrowser (lit "C") manualWorld)).
Proof.
  split.
  - apply (flagConsistent_kept legacyBrowser staleFlagWorld). reflexivity.
  - apply (flagConsistent_kept legacyBrowser manualWorld); [ reflexivity |].
    intros _. reflexivity.
Defined.

(** X10. When every storage method throws, nothing raises and nothing is
    stored: [assignFairBucket] returns the hash-based bucket "A" or "B"
    on every call, [getSavedBucket] returns nothing, [isManualOverride]
    answers false, and neither [setFairBucket] nor [clearFairBucket]
    changes the store. *)
Theorem storeBroken_degrades (env : Env) (w : World) :
  storeBroken env = true ->
  fst (assignFairBucket env w)
  = fst (getHashBasedBucket env (snd (getSavedBucket env w))) /\
  (fst (assignFairBucket env w) = lit "A" \/ fst (assignFairBucket env w) = lit "B") /\
  storage (snd (assignFairBucket env w)) = storage w /\
  fst (getSavedBucket env w) = None /\
  fst (isManualOverride env w) = false /\
  (forall b, storage (snd (setFairBucket env b w)) = storage w) /\
  storage (snd (clearFairBucket env w)) = storage w.
Proof.
  unfold storeBroken. intros H.
  destruct (storage_getItem_ok env) eqn:Hg; [ discriminate |].
  destruct (storage_setItem_ok env) eqn:Hs; [ discriminate |].
  destruct (storage_removeItem_ok env) eqn:Hr; [ discriminate |]. clear H.
  assert (Hsaved : forall w0, fst (getSavedBucket env w0) = None).
  { intros w0. unfold getSavedBucket, localStorage_getItem. run. now rewrite Hg. }
  assert (Hres : forall w0, fst (assignFairBucket env w0)
                 = fst (getHashBasedBucket env (snd (getSavedBucket env w0)))).
  { intros w0. now rewrite assignFairBucket_result, Hsaved. }
  assert (Hsto : forall w0, storage (snd (assignFairBucket env w0)) = storage w0).
  { intros w0. now rewrite assignFairBucket_storage, Hsaved, Hs, Hr. }
  split; [ apply Hres |].
  split; [ rewrite Hres; apply getHashBasedBucket_cases |].
  split; [ apply Hsto |]. split; [ apply Hsaved |]. split; [| split ].
  - unfold isManualOverride, localStorage_getItem. run. now rewrite Hg.
  - intros b.
    destruct (decide (b = lit "A")) as [HA | HA];
      [| destruct (decide (b = lit "B")) as [HB | HB] ].
    + now rewrite setFairBucket_storage, Hs by auto.
    + now rewrite setFairBucket_storage, Hs by auto.
    + now rewrite (setFairBucket_invalid env b w HA HB).
  - rewrite clearFairBucket_unfold, Hr, Hsto. reflexivity.
Qed.

Lemma storeBroken_degrades_witness :
  storage (snd (assignFairBucket privateBrowser manualWorld)) = storage manualWorld.
Proof.
  apply (storeBroken_degrades privateBrowser manualWorld). reflexivity.
Defined.

(** X11. When [localStorage.setItem] throws, [setFairBucket] changes
    nothing in the store for any argument, so the override is lost and
    [getSavedBucket] returns what it returned before; [assignFairBucket]
    leaves the assignment key as it was, so an unassigned client stays
    unassigned. *)
Theorem setItem_failure_loses_writes (env : Env) (w : World) :
  storage_setItem_ok env = false ->
  (forall b, storage (snd (setFairBucket env b w)) = storage w /\
             fst (getSavedBucket env (snd (setFairBucket env b w)))
             = fst (getSavedBucket env w)) /\
  storage (snd (assignFairBucket env w)) !! FAIR_BUCKET_STORAGE_KEY
  = storage w !! FAIR_BUCKET_STORAGE_KEY.
Proof.
  intros Hs. split.
  - intros b.
    assert (Hsto : storage (snd (setFairBucket env b w)) = storage w).
    { destruct (decide (b = lit "A")) as [HA | HA];
        [| destruct (decide (b = lit "B")) as [HB | HB] ].
      - now rewrite setFairBucket_storage, Hs by auto.
      - now rewrite setFairBucket_storage, Hs by auto.
      - now rewrite (setFairBucket_invalid env b w HA HB). }
    split; [ exact Hsto |].
    unfold getSavedBucket, localStorage_getItem. run.
    destruct (storage_getItem_ok env); simpl; [ now rewrite Hsto | reflexivity ].
  - rewrite assignFairBucket_storage, Hs.
    destruct (truthy _); [ reflexivity |]. cbn zeta.
    destruct (storage_removeItem_ok env); [| reflexivity ].
    apply lookup_delete_ne, not_eq_sym, keys_distinct.
Qed.

Lemma setItem_failure_loses_writes_witness :
  storage (snd (setFairBucket quotaBrowser (lit "A") freshWorld)) = storage freshWorld /\
  storage (snd (assignFairBucket quotaBrowser freshWorld)) !! FAIR_BUCKET_STORAGE_KEY
  = None.
Proof.
  split.
  - apply (setItem_failure_loses_writes quotaBrowser freshWorld). reflexivity.
  - apply (setItem_failure_loses_writes quotaBrowser freshWorld). reflexivity.
Defined.

(** X12. When [localStorage.removeItem] throws and a non-empty value is
    stored, [clearFairBucket] clears nothing and does not reassign: it
    returns the stored value and the store is as before. *)
Theorem clearFairBucket_removeItem_failure (env : Env) (w : World) (s : jsstr) :
  storage_removeItem_ok env = false ->
  fst (getSavedBucket env w) = Some s -> s <> [] ->
  fst (clearFairBucket env w) = s /\
  storage (snd (clearFairBucket env w)) = storage w.
Proof.
  intros Hr Hsaved Hne. apply getSavedBucket_Some in Hsaved as [Hg Hs].
  rewrite clearFairBucket_unfold, Hr.
  set (wc := emitted _ _).
  assert (Hs' : storage wc !! FAIR_BUCKET_STORAGE_KEY = Some s) by exact Hs.
  now rewrite (assignFairBucket_existing _ _ _ Hg Hs' Hne).
Qed.

Lemma clearFairBucket_removeItem_failure_witness :
  fst (clearFairBucket stuckBrowser manualWorld) = lit "B".
Proof.
  apply (clearFairBucket_removeItem_failure stuckBrowser manualWorld (lit "B"));
    [ reflexivity | reflexivity | discriminate ].
Defined.

(** X13. When [localStorage.removeItem] throws while the rest works, an
    automatic assignment made over a left-over manual flag keeps the flag:
    [assignFairBucket] returns and stores the hash-based bucket, and
    [isManualOverride] answers true for it. *)
Theorem assignFairBucket_stale_flag (env : Env) (w : World) :
  storage_getItem_ok env = true -> storage_setItem_ok env = true ->
  storage_removeItem_ok env = false ->
  truthy (storage w !! FAIR_BUCKET_STORAGE_KEY) = false ->
  storage w !! FAIR_BUCKET_MANUAL_KEY = Some (lit "true") ->
  let b := fst (assignFairBucket env w) in
  let w' := snd (assignFairBucket env w) in
  b = fst (getHashBasedBucket env (emitted (EvGetItem FAIR_BUCKET_STORAGE_KEY) w)) /\
  fst (getSavedBucket env w') = Some b /\
  fst (isManualOverride env w') = true.
Proof.
  intros Hg Hs Hr Ht Hm b w'. subst b w'.
  rewrite assignFairBucket_result, (getSavedBucket_works _ _ Hg). cbn [fst snd].
  rewrite Ht. split; [ reflexivity |].
  rewrite (getSavedBucket_works _ _ Hg), (isManualOverride_works _ _ Hg).
  rewrite assignFairBucket_storage, (getSavedBucket_works _ _ Hg). cbn [fst snd].
  rewrite Ht, Hs, Hr. cbn zeta. split.
  - apply lookup_insert_eq.
  - rewrite lookup_insert_ne by apply keys_distinct.
    rewrite Hm. now apply bool_decide_eq_true_2.
Qed.

Lemma assignFairBucket_stale_flag_witness :
  fst (isManualOverride stuckBrowser (snd (assignFairBucket stuckBrowser staleFlagWorld)))
  = true.
Proof.
  apply (assignFairBucket_stale_flag stuckBrowser staleFlagWorld); reflexivity.
Defined.

(* ===================================================================== *)
(** ** The chat stream of the interceptor *)
(* ===================================================================== *)

Lemma splitSpaces_cons (text : jsstr) :
  exists word more, splitSpaces text = word :: more.
Proof.
  destruct text as [|c rest]; simpl; [ now eexists _, _ |].
  destruct (c =? 32); [ now eexists _, _ |].
  destruct (splitSpaces rest); now eexists _, _.
Qed.

Lemma chunksOf_more (word m : jsstr) (more : list jsstr) :
  chunksOf (word :: m :: more) = (word ++ lit " ") :: chunksOf (m :: more).
Proof. reflexivity. Qed.

(** Joining the chunks gives the text back. *)
Lemma concat_chunksOf_splitSpaces (text : jsstr) :
  concat (chunksOf (splitSpaces text)) = text.
Proof.
  induction text as [|c rest IH]; [ reflexivity |].
  cbn [splitSpaces].
  destruct (splitSpaces_cons rest) as (word & more & E). rewrite E in IH |- *.
  destruct (Z.eqb_spec c 32) as [-> | Hc].
  - rewrite chunksOf_more. cbn [concat]. now rewrite IH.
  - destruct more as [|m more'].
    + cbn [chunksOf concat] in IH |- *. now rewrite <- IH.
    + rewrite chunksOf_more in IH |- *. cbn [concat] in IH |- *.
      now rewrite <- IH.
Qed.

Lemma chunkAt_S (word : jsstr) (more : list jsstr) (j : nat) :
  chunkAt (word :: more) (S j) = chunkAt more j.
Proof.
  unfold chunkAt. cbn [nth length]. f_equal.
  destruct (Nat.ltb_spec (S j) (S (length more) - 1)),
    (Nat.ltb_spec j (length more - 1)); try reflexivity; lia.
Qed.

Lemma map_chunkAt_chunksOf (ws : list jsstr) :
  map (chunkAt ws) (seq 0 (length ws)) = chunksOf ws.
Proof.
  induction ws as [|word more IH]; [ reflexivity |].
  cbn [length seq map]. rewrite <- seq_shift, map_map.
  rewrite (map_ext _ (chunkAt more) (chunkAt_S word more)), IH.
  unfold chunkAt. cbn [nth length].
  destruct more as [|m more']; simpl; [ now rewrite app_nil_r | reflexivity ].
Qed.

Lemma pullAll_closed (fuel : nat) (st : ChatStream) :
  closed st = true -> pullAll fuel st = st.
Proof. intros H. destruct fuel; simpl; [ reflexivity | now rewrite H ]. Qed.

(** Enough calls of [pull] enqueue the chunks from [i] on and close. *)
Lemma pullAll_run (fuel : nat) :
  forall (ws : list jsstr) (i : nat) (q : list (list Z)),
    (length ws - i < fuel)%nat -> (i <= length ws)%nat ->
    pullAll fuel {| words := ws; index_i := i; enqueued := q; closed := false |}
    = {| words := ws; index_i := length ws;
         enqueued := q ++ map (fun j => TextEncoder_encode (chunkAt ws j))
                            (seq i (length ws - i));
         closed := true |}.
Proof.
  induction fuel as [|fuel IH]; intros ws i q Hfuel Hi; [ lia |].
  cbn [pullAll closed]. unfold pull. cbn [words index_i enqueued closed].
  destruct (Nat.leb_spec (length ws) i) as [Hend | Hmore].
  - rewrite pullAll_closed by reflexivity.
    replace (length ws - i)%nat with 0%nat by lia. simpl.
    rewrite app_nil_r. f_equal. lia.
  - fold (chunkAt ws i). rewrite IH by lia.
    replace (length ws - i)%nat with (S (length ws - S i)) by lia.
    cbn [seq map]. now rewrite <- app_assoc.
Qed.

(** A space is never part of a surrogate pair, so encoding splits at it. *)
Lemma TextEncoder_encode_space (n : nat) :
  forall a rest : jsstr,
    (length a <= n)%nat ->
    TextEncoder_encode (a ++ 32 :: rest)
    = TextEncoder_encode a ++ 32 :: TextEncoder_encode rest.
Proof.
  induction n as [|n IH]; intros [|c a] rest Hlen;
    try reflexivity; [ simpl in Hlen; lia |].
  cbn [app TextEncoder_encode].
  destruct (isHighSurrogate c).
  - destruct a as [|d a'].
    + reflexivity.
    + cbn [app]. destruct (isLowSurrogate d).
      * rewrite IH by (simpl in Hlen; lia). now rewrite <- app_assoc.
      * change (d :: a' ++ 32 :: rest) with ((d :: a') ++ 32 :: rest).
        rewrite IH by (simpl in *; lia). now rewrite <- app_assoc.
  - destruct (isLowSurrogate c);
      rewrite IH by (simpl in Hlen; lia); now rewrite <- app_assoc.
Qed.

Lemma concat_encode_chunksOf (ws : list jsstr) :
  concat (map TextEncoder_encode (chunksOf ws))
  = TextEncoder_encode (concat (chunksOf ws)).
Proof.
  induction ws as [|word more IH]; [ reflexivity |].
  destruct more as [|m more'].
  - simpl. now rewrite !app_nil_r.
  - rewrite chunksOf_more. cbn [map concat]. rewrite IH.
    change (lit " ") with [32]. rewrite <- app_assoc. cbn [app].
    rewrite !(TextEncoder_encode_space (length word)) by lia.
    now rewrite <- app_assoc.
Qed.

(** X14. The chat stream delivers the text: once [pull] has been called
    more often than the text has words, the stream is closed, it has
    enqueued one chunk per word, and the chunks put together are the
    UTF-8 encoding of the whole text. *)
Theorem streamingResponse_delivers_text (text : jsstr) (fuel : nat) :
  (length (splitSpaces text) < fuel)%nat ->
  body (streamingResponse text) = BodyStream (newStream text) /\
  closed (pullAll fuel (newStream text)) = true /\
  length (enqueued (pullAll fuel (newStream text))) = length (splitSpaces text) /\
  concat (enqueued (pullAll fuel (newStream text))) = TextEncoder_encode text.
Proof.
  intros Hfuel. split; [ reflexivity |].
  unfold newStream. rewrite pullAll_run by lia.
  cbn [closed enqueued app]. rewrite Nat.sub_0_r.
  split; [ reflexivity |]. split.
  - now rewrite length_map, length_seq.
  - rewrite <- (map_map (chunkAt (splitSpaces text)) TextEncoder_encode).
    rewrite map_chunkAt_chunksOf, concat_encode_chunksOf.
    now rewrite concat_chunksOf_splitSpaces.
Qed.

Lemma streamingResponse_delivers_text_witness :
  concat (enqueued (pullAll 4 (newStream (lit "hi there you"))))
  = TextEncoder_encode (lit "hi there you").
Proof.
  apply (streamingResponse_delivers_text (lit "hi there you") 4).
  vm_compute. lia.
Defined.

(** X15. A POST to a path that starts with "/api/" is answered with status
    200 and a JSON error text naming the model: all of the path after the
    prefix, or "unknown" when nothing follows it. *)
Theorem handlePost_api_model (m : jsstr) :
  handlePost (lit "/api/" ++ m)
  = jsonResponse
      (JObject
         [("err"%string,
           JString (lit "Coming soon " ++ [8212] ++ lit " the "
                    ++ match m with [] => lit "unknown" | _ :: _ => m end
                    ++ lit " endpoint is not yet available on the EU instance."))])
      (Some 200).
Proof.
  unfold handlePost.
  rewrite bool_decide_eq_false_2 by discriminate.
  change (indexOf (lit "/api/") (lit "/api/" ++ m)) with 0.
  change (replace (lit "/api/") [] (lit "/api/" ++ m)) with m.
  cbn [Z.eqb]. now destruct m.
Qed.
